(** * Path geometry core of the canvas library ([path_util.go], [util.go])

    A shallow embedding of the root finder, quadrature, arc-length
    parametrisation, elliptical-arc and cubic-Bezier routines, and of the
    adaptive flattener / stroker, together with the properties stated for
    them.

    Numbers.  The Go code computes on [float64].  The routines are given in
    two readings.

    - The exact reading keeps the special values the code branches on (NaN,
      the two infinities) and takes every finite value to be a real number,
      with exact arithmetic on finite values: no rounding, no overflow, a
      single zero.  The general statements are made in this reading.  What
      they say of the program rests on the comparisons and the branch
      structure of the code, or holds with room to spare under hypotheses
      that keep the values away from overflow, or speaks of the formulas of
      the code as real functions.

    - The binary64 reading (module [Binary64]) computes on IEEE 754 binary64
      numbers, as the program does.  It is executable, and gives the runs of
      the program on concrete inputs, among them the inputs on which the
      program departs from the exact reading. *)

From Stdlib Require Import Reals Lra Lia ZArith List Bool String.
From Stdlib Require Floats.
Import ListNotations.

Open Scope R_scope.

(** ** Decidable comparisons on the reals, as booleans *)

Definition Rltb (a b : R) : bool := if Rlt_dec a b then true else false.
Definition Reqb (a b : R) : bool := if Req_dec_T a b then true else false.

Lemma Rltb_true (a b : R) : a < b -> Rltb a b = true.
Proof. unfold Rltb; destruct (Rlt_dec a b); intros; [reflexivity | lra]. Qed.

Lemma Rltb_false (a b : R) : b <= a -> Rltb a b = false.
Proof. unfold Rltb; destruct (Rlt_dec a b); intros; [lra | reflexivity]. Qed.

Lemma Reqb_true (a b : R) : a = b -> Reqb a b = true.
Proof. unfold Reqb; destruct (Req_dec_T a b); intros; [reflexivity | lra]. Qed.

Lemma Reqb_false (a b : R) : a <> b -> Reqb a b = false.
Proof. unfold Reqb; destruct (Req_dec_T a b); intros; [lra | reflexivity]. Qed.

Lemma Rltb_spec (a b : R) : Rltb a b = true <-> a < b.
Proof. unfold Rltb; destruct (Rlt_dec a b); split; intros; (reflexivity || lra || discriminate). Qed.

Lemma Reqb_spec (a b : R) : Reqb a b = true <-> a = b.
Proof. unfold Reqb; destruct (Req_dec_T a b); split; intros; (reflexivity || lra || discriminate). Qed.

(** ** The [float64] model *)

Inductive float64 : Type :=
| NaN : float64
| NInf : float64
| Fin : R -> float64
| PInf : float64.

Coercion Fin : R >-> float64.

Declare Scope f64_scope.
Delimit Scope f64_scope with f64.
Bind Scope f64_scope with float64.

(** [math.IsNaN] *)
Definition IsNaN (x : float64) : bool :=
  match x with NaN => true | _ => false end.

(** unary minus *)
Definition fneg (x : float64) : float64 :=
  match x with
  | NaN => NaN
  | NInf => PInf
  | Fin a => Fin (- a)
  | PInf => NInf
  end.

(** [x + y]; opposite infinities cancel to NaN *)
Definition fadd (x y : float64) : float64 :=
  match x, y with
  | NaN, _ | _, NaN => NaN
  | PInf, NInf | NInf, PInf => NaN
  | PInf, _ | _, PInf => PInf
  | NInf, _ | _, NInf => NInf
  | Fin a, Fin b => Fin (a + b)
  end.

(** [x - y] *)
Definition fsub (x y : float64) : float64 := fadd x (fneg y).

(** the infinity of a given sign *)
Definition inf_of (negative : bool) : float64 :=
  if negative then NInf else PInf.

(** [x * y]; infinity times zero is NaN *)
Definition fmul (x y : float64) : float64 :=
  match x, y with
  | NaN, _ | _, NaN => NaN
  | Fin a, Fin b => Fin (a * b)
  | Fin a, PInf | PInf, Fin a =>
      if Reqb a 0 then NaN else inf_of (Rltb a 0)
  | Fin a, NInf | NInf, Fin a =>
      if Reqb a 0 then NaN else inf_of (negb (Rltb a 0))
  | PInf, PInf | NInf, NInf => PInf
  | PInf, NInf | NInf, PInf => NInf
  end.

(** [x / y]; the model has one zero, taken as positive: a non-zero finite
    value over zero is the infinity of the numerator's sign, and zero over
    zero is NaN *)
Definition fdiv (x y : float64) : float64 :=
  match x, y with
  | NaN, _ | _, NaN => NaN
  | PInf, PInf | PInf, NInf | NInf, PInf | NInf, NInf => NaN
  | Fin _, PInf | Fin _, NInf => Fin 0
  | PInf, Fin b => inf_of (Rltb b 0)
  | NInf, Fin b => inf_of (negb (Rltb b 0))
  | Fin a, Fin b =>
      if Reqb b 0
      then (if Reqb a 0 then NaN else inf_of (Rltb a 0))
      else Fin (a / b)
  end.

(** [x == y]: NaN equals nothing *)
Definition feqb (x y : float64) : bool :=
  match x, y with
  | Fin a, Fin b => Reqb a b
  | PInf, PInf | NInf, NInf => true
  | _, _ => false
  end.

(** [x < y]: false as soon as one side is NaN *)
Definition fltb (x y : float64) : bool :=
  match x, y with
  | NaN, _ | _, NaN => false
  | Fin a, Fin b => Rltb a b
  | NInf, NInf | PInf, _ | _, NInf => false
  | NInf, _ | _, PInf => true
  end.

(** [x <= y] *)
Definition fleb (x y : float64) : bool := fltb x y || feqb x y.

(** [x != y] *)
Definition fneb (x y : float64) : bool := negb (feqb x y).

Module F64Notations.
Infix "+" := fadd : f64_scope.
Infix "-" := fsub : f64_scope.
Infix "*" := fmul : f64_scope.
Infix "/" := fdiv : f64_scope.
Notation "- x" := (fneg x) : f64_scope.
Infix "==" := feqb (at level 70, no associativity) : f64_scope.
Infix "!=" := fneb (at level 70, no associativity) : f64_scope.
Infix "<?" := fltb (at level 70, no associativity) : f64_scope.
Infix "<=?" := fleb (at level 70, no associativity) : f64_scope.
Notation "x >? y" := (fltb y x) (at level 70, no associativity) : f64_scope.
Notation "x >=? y" := (fleb y x) (at level 70, no associativity) : f64_scope.
End F64Notations.
Import F64Notations.

(** [math.Abs] *)
Definition Abs (x : float64) : float64 :=
  match x with
  | NaN => NaN
  | NInf | PInf => PInf
  | Fin a => Fin (Rabs a)
  end.

(** [math.Sqrt]: NaN below zero *)
Definition Sqrt (x : float64) : float64 :=
  match x with
  | NaN | NInf => NaN
  | PInf => PInf
  | Fin a => if Rltb a 0 then NaN else Fin (sqrt a)
  end.

(** [math.Hypot]: an infinite argument wins over NaN *)
Definition Hypot (x y : float64) : float64 :=
  match x, y with
  | PInf, _ | NInf, _ | _, PInf | _, NInf => PInf
  | NaN, _ | _, NaN => NaN
  | Fin a, Fin b => Fin (sqrt (a * a + b * b))
  end.

(** the real cube root *)
Definition Rcbrt (a : R) : R :=
  if Reqb a 0 then 0
  else if Rltb a 0 then - Rpower (- a) (1 / 3)
  else Rpower a (1 / 3).

(** [math.Cbrt] *)
Definition Cbrt (x : float64) : float64 :=
  match x with
  | Fin a => Fin (Rcbrt a)
  | other => other
  end.

(** [math.Sincos], one component at a time *)
Definition Sin (x : float64) : float64 :=
  match x with Fin a => Fin (sin a) | _ => NaN end.
Definition Cos (x : float64) : float64 :=
  match x with Fin a => Fin (cos a) | _ => NaN end.

(** [math.Acos]: NaN outside [[-1, 1]] *)
Definition Acos (x : float64) : float64 :=
  match x with
  | Fin a => if Rltb a (-1) || Rltb 1 a then NaN else Fin (acos a)
  | _ => NaN
  end.

(** [math.Min] and [math.Max]: an infinity of the right sign wins, then NaN *)
Definition Min (x y : float64) : float64 :=
  match x, y with
  | NInf, _ | _, NInf => NInf
  | NaN, _ | _, NaN => NaN
  | _, _ => if (x <? y)%f64 then x else y
  end.
Definition Max (x y : float64) : float64 :=
  match x, y with
  | PInf, _ | _, PInf => PInf
  | NaN, _ | _, NaN => NaN
  | _, _ => if (x >? y)%f64 then x else y
  end.

(** [math.Pi] *)
Definition Pi : float64 := Fin PI.

(** [math.Inf(1)] *)
Definition Inf : float64 := PInf.

(** [int(x)] for a [float64] [x]: truncation toward zero.  Go leaves the
    result implementation-dependent when the value is not representable in
    the integer type; the model answers [None] there. *)
Definition Ztrunc (a : R) : Z :=
  if Rltb a 0 then (- Zfloor (- a))%Z else Zfloor a.

Definition int_of_float64 (x : float64) : option Z :=
  match x with
  | Fin a =>
      let z := Ztrunc a in
      if ((- 2 ^ 63 <=? z) && (z <? 2 ^ 63))%Z then Some z else None
  | _ => None
  end.

(** [float64(n)] for an [int] [n] *)
Definition float64_of_int (n : Z) : float64 := Fin (IZR n).

(** ** Results of code that may panic or loop *)

Inductive result (A : Type) : Type :=
| Ok : A -> result A
| Panic : string -> result A
| OutOfFuel : result A.

Arguments Ok {A} _.
Arguments Panic {A} _.
Arguments OutOfFuel {A}.

Definition bind {A B : Type} (m : result A) (k : A -> result B) : result B :=
  match m with
  | Ok a => k a
  | Panic msg => Panic msg
  | OutOfFuel => OutOfFuel
  end.

Notation "x <- m ;; k" := (bind m (fun x => k))
  (at level 61, m at next level, right associativity).
Notation "' pat <- m ;; k" := (bind m (fun x => match x with pat => k end))
  (at level 61, pat pattern, m at next level, right associativity).

(** ** Collaborators: [Point] and [Path] *)

(** Modelled from the spec: the [Point] type and its methods are not part of
    the two source files.  A point is an immutable pair of coordinates with
    value equality; [Add], [Sub], [Mul] (by a scalar), [Dot], [PerpDot] (the
    2D cross product), [Length], [Norm d] (scale to length [d]; the zero
    vector maps to zero), [Rot90CW] and [Interpolate other t], which is
    [self + (other - self) * t]. *)
Record Point : Type := mkPoint { X : float64; Y : float64 }.

Definition PointZero : Point := mkPoint (Fin 0) (Fin 0).

Section PointMethods.
Local Open Scope f64_scope.

Definition Add (p q : Point) : Point := mkPoint (X p + X q) (Y p + Y q).
Definition Sub (p q : Point) : Point := mkPoint (X p - X q) (Y p - Y q).
Definition Mul (p : Point) (f : float64) : Point := mkPoint (X p * f) (Y p * f).
Definition Dot (p q : Point) : float64 := X p * X q + Y p * Y q.
Definition PerpDot (p q : Point) : float64 := X p * Y q - Y p * X q.
Definition Length (p : Point) : float64 := Hypot (X p) (Y p).
Definition Rot90CW (p : Point) : Point := mkPoint (Y p) (- X p).
Definition Norm (p : Point) (length : float64) : Point :=
  let d := Length p in
  if d == 0 then PointZero
  else mkPoint (X p / d * length) (Y p / d * length).
Definition Interpolate (p q : Point) (t : float64) : Point :=
  Add p (Mul (Sub q p) t).
End PointMethods.

(** Modelled from the spec: the path sink is not part of the two source
    files.  It is an append-only ordered sequence of line and quad commands;
    [LineTo] and [QuadTo] append one command each. *)
Inductive Cmd : Type :=
| LineToCmd (x y : float64)
| QuadToCmd (cx cy x y : float64).

Definition Path : Type := list Cmd.

Definition LineTo (p : Path) (x y : float64) : Path := p ++ [LineToCmd x y].
Definition QuadTo (p : Path) (cx cy x y : float64) : Path :=
  p ++ [QuadToCmd cx cy x y].

(** ** RootFinder *)

Section RootFinder.
Local Open Scope f64_scope.

(** the clip [if 1.0 <= x || x < 0.0 { x = math.NaN() }] *)
Definition clip01 (x : float64) : float64 :=
  if (1 <=? x) || (x <? 0) then NaN else x.

Definition solveQuadraticFormula (a b c : float64) : float64 * float64 :=
  if a == 0 then
    if b == 0 then
      if c == 0 then (Fin 0, NaN)
      else (NaN, NaN)
    else
      let x1 := - c / b in
      (clip01 x1, NaN)
  else if c == 0 then
    let x2 := - b / a in
    (Fin 0, clip01 x2)
  else
    let discriminant := b * b - 4 * a * c in
    if discriminant <? 0 then (NaN, NaN)
    else if discriminant == 0 then
      let x1 := - b / (2 * a) in
      (clip01 x1, NaN)
    else
      let q := Sqrt discriminant in
      let q := if b <? 0 then - q else q in
      let x1 := - (b + q) / (2 * a) in
      let x2 := c / (a * x1) in
      let '(x1, x2) := if x1 >? x2 then (x2, x1) else (x1, x2) in
      (clip01 x1, clip01 x2).
End RootFinder.

(** ** Quadrature *)

Definition gaussLegendreFunc : Type :=
  (float64 -> float64) -> float64 -> float64 -> float64.

Section Quadrature.
Local Open Scope f64_scope.

(** Gauss-Legendre quadrature from [a] to [b] with n=5 *)
Definition gaussLegendre5 : gaussLegendreFunc := fun f a b =>
  let c := (b - a) / 2 in
  let d := (a + b) / 2 in
  let Qd1 := f (-0.90618 * c + d) in
  let Qd2 := f (-0.538469 * c + d) in
  let Qd3 := f d in
  let Qd4 := f (0.538469 * c + d) in
  let Qd5 := f (0.90618 * c + d) in
  c * (0.236927 * (Qd1 + Qd5) + 0.478629 * (Qd2 + Qd4) + 0.568889 * Qd3).

Definition MaxIterations : nat := 100.

(** The [for] loop of [bisectionMethod].  [n] is the loop counter; the
    loop state that is returned holds the estimate and the final value of
    the counter. *)
Fixpoint bisectionLoop (fuel : nat) (f : float64 -> float64)
    (y toleranceX toleranceY : float64) (n : nat) (xmin xmax : float64)
    : result (float64 * nat) :=
  match fuel with
  | O => OutOfFuel
  | S fuel' =>
      let x := (xmin + xmax) / 2 in
      if (MaxIterations <=? n)%nat then Ok (x, n)
      else
        let dy := f x - y in
        if (Abs dy <? toleranceY) || (Abs (xmax - xmin) / 2 <? toleranceX)
        then Ok (x, n)
        else if dy >? 0
        then bisectionLoop fuel' f y toleranceX toleranceY (S n) xmin x
        else bisectionLoop fuel' f y toleranceX toleranceY (S n) x xmax
  end.

(** find [x] with [f x = y] in [[xmin, xmax]] by bisection *)
Definition bisectionMethod (fuel : nat) (f : float64 -> float64)
    (y xmin xmax : float64) : result float64 :=
  let Tolerance := 0.001 in
  let toleranceX := Abs (xmax - xmin) * Tolerance in
  let toleranceY := Abs (f xmax - f xmin) * Tolerance in
  '(x, _) <- bisectionLoop fuel f y toleranceX toleranceY 0 xmin xmax ;;
  Ok x.

Definition polynomialApprox3 (gaussLegendre : gaussLegendreFunc)
    (fp : float64 -> float64) (xmin xmax : float64)
    : (float64 -> float64) * float64 :=
  let y1 := gaussLegendre fp xmin (xmin + (xmax - xmin) * 1 / 3) in
  let y2 := gaussLegendre fp xmin (xmin + (xmax - xmin) * 2 / 3) in
  let y3 := gaussLegendre fp xmin xmax in
  let a := 13.5 * y1 - 13.5 * y2 + 4.5 * y3 in
  let b := -22.5 * y1 + 18 * y2 - 4.5 * y3 in
  let c := 9 * y1 - 4.5 * y2 + y3 in
  (fun x =>
     let x := (x - xmin) / (xmax - xmin) in
     a * x * x * x + b * x * x + c * x,
   Abs y3).
End Quadrature.

(** ** Elliptical arcs *)

(** Modelled from the spec: [angleNorm] is a geometry helper that is not part
    of the two source files; it normalises an angle into [[0, 2 pi)]. *)
Definition angleNorm (theta : float64) : float64 :=
  match theta with
  | Fin a => Fin (a - 2 * PI * IZR (Zfloor (a / (2 * PI))))
  | _ => NaN
  end.

Section Ellipse.
Local Open Scope f64_scope.

Definition ellipsePos (rx ry phi cx cy theta : float64) : Point :=
  let sintheta := Sin theta in
  let costheta := Cos theta in
  let sinphi := Sin phi in
  let cosphi := Cos phi in
  let x := cx + rx * costheta * cosphi - ry * sintheta * sinphi in
  let y := cy + rx * costheta * sinphi + ry * sintheta * cosphi in
  mkPoint x y.

Definition ellipseDeriv (rx ry phi : float64) (sweep : bool)
    (theta : float64) : Point :=
  let sintheta := Sin theta in
  let costheta := Cos theta in
  let sinphi := Sin phi in
  let cosphi := Cos phi in
  let dx := - rx * sintheta * cosphi - ry * costheta * sinphi in
  let dy := - rx * sintheta * sinphi + ry * costheta * cosphi in
  if negb sweep then mkPoint (- dx) (- dy) else mkPoint dx dy.

(** length of the elliptical arc, by Gauss-Legendre with n=5 *)
Definition ellipseLength (rx ry theta1 theta2 : float64) : float64 :=
  let '(theta1, theta2) :=
    if theta2 <? theta1 then (theta2, theta1) else (theta1, theta2) in
  let speed := fun theta => Length (ellipseDeriv rx ry 0 true theta) in
  gaussLegendre5 speed theta1 theta2.

(** conversion to the center format: (centerX, centerY, angleFrom, angleTo) *)
Definition ellipseToCenter (x1 y1 rx ry phi : float64) (large sweep : bool)
    (x2 y2 : float64) : float64 * float64 * float64 * float64 :=
  if (x1 == x2) && (y1 == y2) then (x1, y1, Fin 0, Fin 0)
  else
    let sinphi := Sin phi in
    let cosphi := Cos phi in
    let x1p := cosphi * (x1 - x2) / 2 + sinphi * (y1 - y2) / 2 in
    let y1p := - sinphi * (x1 - x2) / 2 + cosphi * (y1 - y2) / 2 in
    let raddiCheck := x1p * x1p / rx / rx + y1p * y1p / ry / ry in
    let '(rx, ry) :=
      if raddiCheck >? 1
      then (rx * Sqrt raddiCheck, ry * Sqrt raddiCheck)
      else (rx, ry) in
    let sq := (rx * rx * ry * ry - rx * rx * y1p * y1p - ry * ry * x1p * x1p)
              / (rx * rx * y1p * y1p + ry * ry * x1p * x1p) in
    let sq := if sq <? 0 then Fin 0 else sq in
    let coef := Sqrt sq in
    let coef := if Bool.eqb large sweep then - coef else coef in
    let cxp := coef * rx * y1p / ry in
    let cyp := coef * - ry * x1p / rx in
    let cx := cosphi * cxp - sinphi * cyp + (x1 + x2) / 2 in
    let cy := sinphi * cxp + cosphi * cyp + (y1 + y2) / 2 in
    let ux := (x1p - cxp) / rx in
    let uy := (y1p - cyp) / ry in
    let vx := - (x1p + cxp) / rx in
    let vy := - (y1p + cyp) / ry in
    let theta := Acos (ux / Sqrt (ux * ux + uy * uy)) in
    let theta := if uy <? 0 then - theta else theta in
    let theta := angleNorm theta in
    let deltaAcos :=
      (ux * vx + uy * vy) / Sqrt ((ux * ux + uy * uy) * (vx * vx + vy * vy)) in
    let deltaAcos := Min 1 (Max (-1) deltaAcos) in
    let delta := Acos deltaAcos in
    let delta := if ux * vy - uy * vx <? 0 then - delta else delta in
    let delta :=
      if negb sweep && (delta >? 0) then delta - 2 * Pi
      else if sweep && (delta <? 0) then delta + 2 * Pi
      else delta in
    (cx, cy, theta, theta + delta).

(** the counted loop of [flattenEllipse]: [todo] iterations remain, [i] is
    the loop variable *)
Fixpoint flattenEllipseLoop (todo : nat) (i n : Z) (p : Path)
    (rx ry phi cx cy theta1 theta2 : float64) : Path :=
  match todo with
  | O => p
  | S todo' =>
      let t := float64_of_int (i + 1) / float64_of_int n in
      let end_ := ellipsePos rx ry phi cx cy (theta1 + (theta2 - theta1) * t) in
      flattenEllipseLoop todo' (i + 1) n (LineTo p (X end_) (Y end_))
        rx ry phi cx cy theta1 theta2
  end.

(** [None] when the segment count [int(...)] is not representable, where
    Go leaves the count implementation-dependent *)
Definition flattenEllipse (start : Point) (rx ry phi : float64)
    (largeArc sweep : bool) (end_ : Point) : option Path :=
  let p : Path := [] in
  let '(cx, cy, theta1, theta2) :=
    ellipseToCenter (X start) (Y start) rx ry phi largeArc sweep
      (X end_) (Y end_) in
  let nFull := 64 in
  match int_of_float64 (Abs (theta2 - theta1) / 2 / Pi * nFull) with
  | None => None
  | Some n =>
      Some (flattenEllipseLoop (Z.to_nat n) 0 n p
              rx ry phi cx cy theta1 theta2)
  end.
End Ellipse.

(** ** Cubic Beziers *)

Section Bezier.
Local Open Scope f64_scope.

(** [n.X == 0 && n.Y == 0] *)
Definition isZeroPoint (n : Point) : bool := (X n == 0) && (Y n == 0).

(** the normal at the right-hand side of the curve, at an end point *)
Definition cubicBezierNormal (p0 p1 p2 p3 : Point) (t d : float64)
    : result Point :=
  if t == 0 then
    let n := Sub p1 p0 in
    let n := if isZeroPoint n then Sub p2 p0 else n in
    let n := if isZeroPoint n then Sub p3 p0 else n in
    if isZeroPoint n then Ok PointZero
    else Ok (Norm (Rot90CW n) d)
  else if t == 1 then
    let n := Sub p3 p2 in
    let n := if isZeroPoint n then Sub p3 p1 else n in
    let n := if isZeroPoint n then Sub p3 p0 else n in
    if isZeroPoint n then Ok PointZero
    else Ok (Norm (Rot90CW n) d)
  else Panic "not implemented".

Definition splitCubicBezier (p0 p1 p2 p3 : Point) (t : float64)
    : Point * Point * Point * Point * Point * Point * Point * Point :=
  let pm := Interpolate p1 p2 t in
  let q0 := p0 in
  let q1 := Interpolate p0 p1 t in
  let q2 := Interpolate q1 pm t in
  let r3 := p3 in
  let r2 := Interpolate p2 p3 t in
  let r1 := Interpolate pm r2 t in
  let r0 := Interpolate q2 r1 t in
  let q3 := r0 in
  (q0, q1, q2, q3, r0, r1, r2, r3).

(** the guard of [addCubicBezierLine], as it is written: the second test
    compares [p0.Y] with [p3.X] *)
Definition addCubicBezierLineGuard (p0 p1 p2 p3 : Point) : bool :=
  (X p0 == X p3) && (Y p0 == X p3)
  && ((X p0 == X p1) && (Y p0 == Y p1) || (X p0 == X p2) && (Y p0 == Y p2)).

Definition addCubicBezierLine (p : Path) (p0 p1 p2 p3 : Point)
    (t d : float64) : result Path :=
  if addCubicBezierLineGuard p0 p1 p2 p3 then Ok p
  else
    pos <-
      (if t == 0 then
         let pos := p0 in
         if d != 0 then
           n <- cubicBezierNormal p0 p1 p2 p3 t d ;;
           Ok (Add pos n)
         else Ok pos
       else if t == 1 then
         let pos := p3 in
         if d != 0 then
           n <- cubicBezierNormal p0 p1 p2 p3 t d ;;
           Ok (Add pos n)
         else Ok pos
       else Panic "not implemented") ;;
    Ok (LineTo p (X pos) (Y pos)).

(** One pass through the body of the loop of [flattenSmoothCubicBezier],
    from the control points alone: [None] when the loop breaks on
    [s2nom*denom == 0.0], otherwise the new value of [t]. *)
Definition flattenSmoothStep (p0 p1 p2 p3 : Point) (d flatness : float64)
    : option float64 :=
  let s2nom := (X p2 - X p0) * (Y p1 - Y p0) - (Y p2 - Y p0) * (X p1 - X p0) in
  let denom := Hypot (X p1 - X p0) (Y p1 - Y p0) in
  if s2nom * denom == 0 then None
  else
    let s2 := s2nom / denom in
    let r1 := denom in
    let effectiveFlatness := flatness / Abs (1 + 2 * d * s2 / 3 / r1 / r1) in
    Some (2 * Sqrt (effectiveFlatness / 3 / Abs s2)).

(** The loop of [flattenSmoothCubicBezier]; the state is the path, the
    current control points and [t]. *)
Fixpoint flattenSmoothLoop (fuel : nat) (p : Path) (p0 p1 p2 p3 : Point)
    (d flatness t : float64) : result (Path * (Point * Point * Point * Point)) :=
  match fuel with
  | O => OutOfFuel
  | S fuel' =>
      if t <? 1 then
        match flattenSmoothStep p0 p1 p2 p3 d flatness with
        | None => Ok (p, (p0, p1, p2, p3))
        | Some t =>
            if t >=? 1 then Ok (p, (p0, p1, p2, p3))
            else
              let '(_, _, _, _, p0, p1, p2, p3) :=
                splitCubicBezier p0 p1 p2 p3 t in
              p <- addCubicBezierLine p p0 p1 p2 p3 0 d ;;
              flattenSmoothLoop fuel' p p0 p1 p2 p3 d flatness t
        end
      else Ok (p, (p0, p1, p2, p3))
  end.

(** split the curve and replace it by lines as long as the maximum
    deviation stays within [flatness] *)
Definition flattenSmoothCubicBezier (fuel : nat) (p : Path)
    (p0 p1 p2 p3 : Point) (d flatness : float64) : result Path :=
  '(p, (p0, p1, p2, p3)) <-
    flattenSmoothLoop fuel p p0 p1 p2 p3 d flatness 0 ;;
  addCubicBezierLine p p0 p1 p2 p3 1 d.

Definition findInflectionPointsCubicBezier (p0 p1 p2 p3 : Point)
    : float64 * float64 :=
  let ax := - X p0 + 3 * X p1 - 3 * X p2 + X p3 in
  let ay := - Y p0 + 3 * Y p1 - 3 * Y p2 + Y p3 in
  let bx := X p0 - 2 * X p1 + X p2 in
  let by_ := Y p0 - 2 * Y p1 + Y p2 in
  let cx := - X p0 + X p1 in
  let cy := - Y p0 + Y p1 in
  let a := ay * bx - ax * by_ in
  let b := ay * cx - ax * cy in
  let c := by_ * cx - bx * cy in
  solveQuadraticFormula a b c.

Definition findInflectionPointRange (p0 p1 p2 p3 : Point)
    (t flatness : float64) : result (float64 * float64) :=
  if IsNaN t then Ok (Inf, Inf)
  else if (t <? 0) || (t >? 1) then Panic "t outside 0.0--1.0 range"
  else
    let '(p0, p1, p2, p3) :=
      if t != 0 then
        let '(_, _, _, _, p0, p1, p2, p3) := splitCubicBezier p0 p1 p2 p3 t in
        (p0, p1, p2, p3)
      else (p0, p1, p2, p3) in
    let nr := Sub p1 p0 in
    let ns := Sub p3 p0 in
    let nr := if isZeroPoint nr then Sub p2 p0 else nr in
    if isZeroPoint nr then Ok (Fin 0, Fin 1)
    else
      let s3 := Abs (X ns * Y nr - Y ns * X nr) / Hypot (X nr) (Y nr) in
      if s3 == 0 then Ok (Fin 0, Fin 1)
      else
        let tf := Cbrt (flatness / s3) in
        Ok (t - tf * (1 - t), t + tf * (1 - t)).

(** flattening, optionally offset by [d], after Hain et al. (2005) *)
Definition strokeCubicBezier (fuel : nat) (p0 p1 p2 p3 : Point)
    (d flatness : float64) : result Path :=
  let p : Path := [] in
  let '(t1, t2) := findInflectionPointsCubicBezier p0 p1 p2 p3 in
  if IsNaN t1 && IsNaN t2 then
    flattenSmoothCubicBezier fuel p p0 p1 p2 p3 d flatness
  else
    '(t1min, t1max) <- findInflectionPointRange p0 p1 p2 p3 t1 flatness ;;
    '(t2min, t2max) <- findInflectionPointRange p0 p1 p2 p3 t2 flatness ;;
    if IsNaN t2 && (t1min <=? 0) && (1 <=? t1max) then
      addCubicBezierLine p p0 p1 p2 p3 1 d
    else
      p <-
        (if 0 <? t1min then
           let '(q0, q1, q2, q3, _, _, _, _) :=
             splitCubicBezier p0 p1 p2 p3 t1min in
           flattenSmoothCubicBezier fuel p q0 q1 q2 q3 d flatness
         else Ok p) ;;
      (* from "t1 and t2 exist and ranges might overlap" to the end *)
      let rest (p : Path) : result Path :=
        p <-
          (if 0 <? t2min then
             if t2min <? t1max then
               let '(_, _, _, _, q0, q1, q2, q3) :=
                 splitCubicBezier p0 p1 p2 p3 t1max in
               addCubicBezierLine p q0 q1 q2 q3 0 d
             else if 0 <? t1max then
               let '(_, _, _, _, q0, q1, q2, q3) :=
                 splitCubicBezier p0 p1 p2 p3 t1max in
               let t2minq := (t2min - t1max) / (1 - t1max) in
               let '(q0, q1, q2, q3, _, _, _, _) :=
                 splitCubicBezier q0 q1 q2 q3 t2minq in
               flattenSmoothCubicBezier fuel p q0 q1 q2 q3 d flatness
             else
               let '(q0, q1, q2, q3, _, _, _, _) :=
                 splitCubicBezier p0 p1 p2 p3 t2min in
               flattenSmoothCubicBezier fuel p q0 q1 q2 q3 d flatness
           else Ok p) ;;
        if t2max <? 1 then
          let '(_, _, _, _, q0, q1, q2, q3) :=
            splitCubicBezier p0 p1 p2 p3 t2max in
          p <- addCubicBezierLine p q0 q1 q2 q3 0 d ;;
          flattenSmoothCubicBezier fuel p q0 q1 q2 q3 d flatness
        else addCubicBezierLine p p0 p1 p2 p3 1 d in
      if (0 <? t1max) && (t1max <? 1) && (t1max <? t2min) then
        let '(_, _, _, _, q0, q1, q2, q3) :=
          splitCubicBezier p0 p1 p2 p3 t1max in
        p <- addCubicBezierLine p q0 q1 q2 q3 0 d ;;
        if 1 <=? t2min then
          flattenSmoothCubicBezier fuel p q0 q1 q2 q3 d flatness
        else rest p
      else if 1 <=? t2min then addCubicBezierLine p p0 p1 p2 p3 1 d
      else rest p.
End Bezier.


(** ** Further routines of [path_util.go] and [util.go] *)

Section MoreQuadrature.
Local Open Scope f64_scope.

(** Gauss-Legendre quadrature from [a] to [b] with n=3 *)
Definition gaussLegendre3 : gaussLegendreFunc := fun f a b =>
  let c := (b - a) / 2 in
  let d := (a + b) / 2 in
  let Qd1 := f (-0.774596669 * c + d) in
  let Qd2 := f d in
  let Qd3 := f (0.774596669 * c + d) in
  c * ((5 / 9) * (Qd1 + Qd3) + (8 / 9) * Qd2).

(** Gauss-Legendre quadrature from [a] to [b] with n=7 *)
Definition gaussLegendre7 : gaussLegendreFunc := fun f a b =>
  let c := (b - a) / 2 in
  let d := (a + b) / 2 in
  let Qd1 := f (-0.949108 * c + d) in
  let Qd2 := f (-0.741531 * c + d) in
  let Qd3 := f (-0.405845 * c + d) in
  let Qd4 := f d in
  let Qd5 := f (0.405845 * c + d) in
  let Qd6 := f (0.741531 * c + d) in
  let Qd7 := f (0.949108 * c + d) in
  c * (0.129485 * (Qd1 + Qd7) + 0.279705 * (Qd2 + Qd6)
       + 0.381830 * (Qd3 + Qd5) + 0.417959 * Qd4).

End MoreQuadrature.

Section MoreEllipse.
Local Open Scope f64_scope.

Definition ellipseDeriv2 (rx ry phi : float64) (sweep : bool)
    (theta : float64) : Point :=
  let sintheta := Sin theta in
  let costheta := Cos theta in
  let sinphi := Sin phi in
  let cosphi := Cos phi in
  let ddx := - rx * costheta * cosphi + ry * sintheta * sinphi in
  let ddy := - rx * costheta * sinphi - ry * sintheta * cosphi in
  mkPoint ddx ddy.

(** the counted loop of [ellipseToBeziers]: [todo] iterations remain, [i] is
    the loop variable *)
Fixpoint ellipseToBeziersLoop (todo : nat) (i : Z) (p : Path)
    (rx ry phi cx cy theta1 theta2 : float64) : Path :=
  match todo with
  | O => p
  | S todo' =>
      let n := 16 in
      let p1 := float64_of_int (i + 0) / n in
      let p2 := float64_of_int (i + 1) / n in
      let start := ellipsePos rx ry phi cx cy (theta1 + (theta2 - theta1) * p1) in
      let mid :=
        ellipsePos rx ry phi cx cy (theta1 + (theta2 - theta1) * (p1 + p2) / 2) in
      let end_ := ellipsePos rx ry phi cx cy (theta1 + (theta2 - theta1) * p2) in
      let c := Sub (Sub (Mul mid 2) (Mul start 0.5)) (Mul end_ 0.5) in
      ellipseToBeziersLoop todo' (i + 1)
        (QuadTo p (X c) (Y c) (X end_) (Y end_))
        rx ry phi cx cy theta1 theta2
  end.

Definition ellipseToBeziers (start : Point) (rx ry phi : float64)
    (largeArc sweep : bool) (end_ : Point) : Path :=
  let p : Path := [] in
  let '(cx, cy, theta1, theta2) :=
    ellipseToCenter (X start) (Y start) rx ry phi largeArc sweep
      (X end_) (Y end_) in
  ellipseToBeziersLoop 16 0 p rx ry phi cx cy theta1 theta2.
End MoreEllipse.

Section MoreBezier.
Local Open Scope f64_scope.

Definition quadraticBezierPos (p0 p1 p2 : Point) (t : float64) : Point :=
  let p0 := Mul p0 (1 - 2 * t + t * t) in
  let p1 := Mul p1 (2 * t - 2 * t * t) in
  let p2 := Mul p2 (t * t) in
  Add (Add p0 p1) p2.

Definition quadraticBezierDeriv (p0 p1 p2 : Point) (t : float64) : Point :=
  let p0 := Mul p0 (-2 + 2 * t) in
  let p1 := Mul p1 (1 - 2 * t) in
  let p2 := Mul p2 (2 * t) in
  Add (Add p0 p1) p2.

Definition cubicBezierPos (p0 p1 p2 p3 : Point) (t : float64) : Point :=
  let p0 := Mul p0 (1 - 3 * t + 3 * t * t - t * t * t) in
  let p1 := Mul p1 (3 * t - 6 * t * t + 3 * t * t * t) in
  let p2 := Mul p2 (3 * t * t - 3 * t * t * t) in
  let p3 := Mul p3 (t * t * t) in
  Add (Add (Add p0 p1) p2) p3.

Definition cubicBezierDeriv (p0 p1 p2 p3 : Point) (t : float64) : Point :=
  let p0 := Mul p0 (-3 + 6 * t - 3 * t * t) in
  let p1 := Mul p1 (3 - 12 * t + 9 * t * t) in
  let p2 := Mul p2 (6 * t - 9 * t * t) in
  let p3 := Mul p3 (3 * t * t) in
  Add (Add (Add p0 p1) p2) p3.

Definition cubicBezierDeriv2 (p0 p1 p2 p3 : Point) (t : float64) : Point :=
  let p0 := Mul p0 (6 - 6 * t) in
  let p1 := Mul p1 (18 * t - 12) in
  let p2 := Mul p2 (6 - 18 * t) in
  let p3 := Mul p3 (6 * t) in
  Add (Add (Add p0 p1) p2) p3.

End MoreBezier.

(** ** Rectangles ([util.go]) *)

Module Rect.
Local Open Scope f64_scope.

(** a rectangle defined by a position and its width and height *)
Record Rect : Type := mkRect { X : float64; Y : float64; W : float64; H : float64 }.

(** a rect that encompasses both the current rect and the given rect *)
Definition Add (r q : Rect) : Rect :=
  if (W q == 0) || (H q == 0) then r
  else if (W r == 0) || (H r == 0) then q
  else
    let x0 := Min (X r) (X q) in
    let y0 := Min (Y r) (Y q) in
    let x1 := Max (X r + W r) (X q + W q) in
    let y1 := Max (Y r + H r) (Y q + H q) in
    mkRect x0 y0 (x1 - x0) (y1 - y0).
End Rect.

(** ** The binary64 reading

    The same routines on IEEE 754 binary64 numbers with round-to-nearest, as
    the Go code computes them: every operation rounds, overflows to an
    infinity and keeps the sign of zero.  This reading is executable; it
    gives the runs of the program on concrete inputs.  The functions of
    Go's [math] package that are not IEEE operations ([math.Sincos],
    [math.Acos]) are parameters of the routines that call them. *)

Module Binary64.
Import Floats.PrimFloat Floats.SpecFloat Floats.FloatOps.
Local Open Scope float_scope.
#[local] Set Warnings "-inexact-float".

Definition float64 : Set := float.

(** [math.NaN()], [math.Pi] *)
Definition NaN : float64 := nan.
Definition Pi : float64 := 3.141592653589793.

(** [math.IsNaN], [math.Abs], [math.Sqrt] *)
Definition IsNaN (x : float64) : bool := is_nan x.
Definition Abs (x : float64) : float64 := abs x.
Definition Sqrt (x : float64) : float64 := sqrt x.

(** [math.Signbit] *)
Definition Signbit (x : float64) : bool :=
  match Prim2SF x with
  | S754_zero s | S754_infinity s | S754_finite s _ _ => s
  | S754_nan => false
  end.

(** [math.Min] and [math.Max], with their special cases *)
Definition Min (x y : float64) : float64 :=
  if (x =? neg_infinity) || (y =? neg_infinity) then neg_infinity
  else if IsNaN x || IsNaN y then NaN
  else if (x =? 0) && (x =? y) then (if Signbit x then x else y)
  else if x <? y then x else y.
Definition Max (x y : float64) : float64 :=
  if (x =? infinity) || (y =? infinity) then infinity
  else if IsNaN x || IsNaN y then NaN
  else if (x =? 0) && (x =? y) then (if Signbit x then y else x)
  else if y <? x then x else y.

(** [int(x)]: truncation toward zero; [None] where Go leaves the result
    implementation-dependent *)
Definition int_of_float64 (x : float64) : option Z :=
  match Prim2SF x with
  | S754_zero _ => Some 0%Z
  | S754_finite s m e =>
      let a := if (0 <=? e)%Z then (Z.pos m * 2 ^ e)%Z
               else (Z.pos m / 2 ^ (- e))%Z in
      let z := if s then (- a)%Z else a in
      if ((- 2 ^ 63 <=? z) && (z <? 2 ^ 63))%Z then Some z else None
  | _ => None
  end.

(** [float64(n)] for an [int] [n] *)
Definition float64_of_int (n : Z) : float64 :=
  SF2Prim (binary_normalize prec emax n 0 false).

(** the real number that a finite binary64 value stands for; zero for the
    values that stand for none *)
Definition toR (x : float64) : R :=
  match Prim2SF x with
  | S754_finite s m e =>
      let a := if (0 <=? e)%Z then IZR (Z.pos m * 2 ^ e)
               else (IZR (Z.pos m) / IZR (2 ^ (- e)))%R in
      if s then (- a)%R else a
  | _ => 0%R
  end.

(** *** RootFinder *)

Definition clip01 (x : float64) : float64 :=
  if (1 <=? x) || (x <? 0) then NaN else x.

Definition solveQuadraticFormula (a b c : float64) : float64 * float64 :=
  if a =? 0 then
    if b =? 0 then
      if c =? 0 then (0, NaN)
      else (NaN, NaN)
    else
      let x1 := - c / b in
      (clip01 x1, NaN)
  else if c =? 0 then
    let x2 := - b / a in
    (0, clip01 x2)
  else
    let discriminant := b * b - 4 * a * c in
    if discriminant <? 0 then (NaN, NaN)
    else if discriminant =? 0 then
      let x1 := - b / (2 * a) in
      (clip01 x1, NaN)
    else
      let q := Sqrt discriminant in
      let q := if b <? 0 then - q else q in
      let x1 := - (b + q) / (2 * a) in
      let x2 := c / (a * x1) in
      let '(x1, x2) := if x2 <? x1 then (x2, x1) else (x1, x2) in
      (clip01 x1, clip01 x2).

(** *** Quadrature *)

Definition gaussLegendreFunc : Type :=
  (float64 -> float64) -> float64 -> float64 -> float64.

Definition gaussLegendre5 : gaussLegendreFunc := fun f a b =>
  let c := (b - a) / 2 in
  let d := (a + b) / 2 in
  let Qd1 := f (-0.90618 * c + d) in
  let Qd2 := f (-0.538469 * c + d) in
  let Qd3 := f d in
  let Qd4 := f (0.538469 * c + d) in
  let Qd5 := f (0.90618 * c + d) in
  c * (0.236927 * (Qd1 + Qd5) + 0.478629 * (Qd2 + Qd4) + 0.568889 * Qd3).

Fixpoint bisectionLoop (fuel : nat) (f : float64 -> float64)
    (y toleranceX toleranceY : float64) (n : nat) (xmin xmax : float64)
    : result (float64 * nat) :=
  match fuel with
  | O => OutOfFuel
  | S fuel' =>
      let x := (xmin + xmax) / 2 in
      if (MaxIterations <=? n)%nat then Ok (x, n)
      else
        let dy := f x - y in
        if (Abs dy <? toleranceY) || (Abs (xmax - xmin) / 2 <? toleranceX)
        then Ok (x, n)
        else if 0 <? dy
        then bisectionLoop fuel' f y toleranceX toleranceY (S n) xmin x
        else bisectionLoop fuel' f y toleranceX toleranceY (S n) x xmax
  end.

Definition bisectionMethod (fuel : nat) (f : float64 -> float64)
    (y xmin xmax : float64) : result float64 :=
  let Tolerance := 0.001 in
  let toleranceX := Abs (xmax - xmin) * Tolerance in
  let toleranceY := Abs (f xmax - f xmin) * Tolerance in
  '(x, _) <- bisectionLoop fuel f y toleranceX toleranceY 0 xmin xmax ;;
  Ok x.

Definition polynomialApprox3 (gaussLegendre : gaussLegendreFunc)
    (fp : float64 -> float64) (xmin xmax : float64)
    : (float64 -> float64) * float64 :=
  let y1 := gaussLegendre fp xmin (xmin + (xmax - xmin) * 1 / 3) in
  let y2 := gaussLegendre fp xmin (xmin + (xmax - xmin) * 2 / 3) in
  let y3 := gaussLegendre fp xmin xmax in
  let a := 13.5 * y1 - 13.5 * y2 + 4.5 * y3 in
  let b := -22.5 * y1 + 18 * y2 - 4.5 * y3 in
  let c := 9 * y1 - 4.5 * y2 + y3 in
  (fun x =>
     let x := (x - xmin) / (xmax - xmin) in
     a * x * x * x + b * x * x + c * x,
   Abs y3).

(** *** Elliptical arcs *)

(** The functions that the arc routines call and that are neither IEEE
    operations nor part of the two source files: [math.Sincos] (as its two
    components), [math.Acos], and the geometry helper [angleNorm]. *)
Record Library : Type := mkLibrary {
  Sin : float64 -> float64;
  Cos : float64 -> float64;
  Acos : float64 -> float64;
  angleNorm : float64 -> float64
}.

Record Point : Type := mkPoint { X : float64; Y : float64 }.

Inductive Cmd : Type :=
| LineToCmd (x y : float64)
| QuadToCmd (cx cy x y : float64).

Definition Path : Type := list Cmd.

Definition LineTo (p : Path) (x y : float64) : Path := p ++ [LineToCmd x y].

Definition ellipsePos (m : Library) (rx ry phi cx cy theta : float64) : Point :=
  let sintheta := Sin m theta in
  let costheta := Cos m theta in
  let sinphi := Sin m phi in
  let cosphi := Cos m phi in
  let x := cx + rx * costheta * cosphi - ry * sintheta * sinphi in
  let y := cy + rx * costheta * sinphi + ry * sintheta * cosphi in
  mkPoint x y.

Definition ellipseToCenter (m : Library) (x1 y1 rx ry phi : float64)
    (large sweep : bool) (x2 y2 : float64)
    : float64 * float64 * float64 * float64 :=
  if (x1 =? x2) && (y1 =? y2) then (x1, y1, 0, 0)
  else
    let sinphi := Sin m phi in
    let cosphi := Cos m phi in
    let x1p := cosphi * (x1 - x2) / 2 + sinphi * (y1 - y2) / 2 in
    let y1p := - sinphi * (x1 - x2) / 2 + cosphi * (y1 - y2) / 2 in
    let raddiCheck := x1p * x1p / rx / rx + y1p * y1p / ry / ry in
    let '(rx, ry) :=
      if 1 <? raddiCheck
      then (rx * Sqrt raddiCheck, ry * Sqrt raddiCheck)
      else (rx, ry) in
    let sq := (rx * rx * ry * ry - rx * rx * y1p * y1p - ry * ry * x1p * x1p)
              / (rx * rx * y1p * y1p + ry * ry * x1p * x1p) in
    let sq := if sq <? 0 then 0 else sq in
    let coef := Sqrt sq in
    let coef := if Bool.eqb large sweep then - coef else coef in
    let cxp := coef * rx * y1p / ry in
    let cyp := coef * - ry * x1p / rx in
    let cx := cosphi * cxp - sinphi * cyp + (x1 + x2) / 2 in
    let cy := sinphi * cxp + cosphi * cyp + (y1 + y2) / 2 in
    let ux := (x1p - cxp) / rx in
    let uy := (y1p - cyp) / ry in
    let vx := - (x1p + cxp) / rx in
    let vy := - (y1p + cyp) / ry in
    let theta := Acos m (ux / Sqrt (ux * ux + uy * uy)) in
    let theta := if uy <? 0 then - theta else theta in
    let theta := angleNorm m theta in
    let deltaAcos :=
      (ux * vx + uy * vy) / Sqrt ((ux * ux + uy * uy) * (vx * vx + vy * vy)) in
    let deltaAcos := Min 1 (Max (-1) deltaAcos) in
    let delta := Acos m deltaAcos in
    let delta := if ux * vy - uy * vx <? 0 then - delta else delta in
    let delta :=
      if negb sweep && (0 <? delta) then delta - 2 * Pi
      else if sweep && (delta <? 0) then delta + 2 * Pi
      else delta in
    (cx, cy, theta, theta + delta).

Fixpoint flattenEllipseLoop (m : Library) (todo : nat) (i n : Z) (p : Path)
    (rx ry phi cx cy theta1 theta2 : float64) : Path :=
  match todo with
  | O => p
  | S todo' =>
      let t := float64_of_int (i + 1) / float64_of_int n in
      let end_ := ellipsePos m rx ry phi cx cy (theta1 + (theta2 - theta1) * t) in
      flattenEllipseLoop m todo' (i + 1) n (LineTo p (X end_) (Y end_))
        rx ry phi cx cy theta1 theta2
  end.

Definition flattenEllipse (m : Library) (start : Point) (rx ry phi : float64)
    (largeArc sweep : bool) (end_ : Point) : option Path :=
  let p : Path := [] in
  let '(cx, cy, theta1, theta2) :=
    ellipseToCenter m (X start) (Y start) rx ry phi largeArc sweep
      (X end_) (Y end_) in
  let nFull := 64 in
  match int_of_float64 (Abs (theta2 - theta1) / 2 / Pi * nFull) with
  | None => None
  | Some n =>
      Some (flattenEllipseLoop m (Z.to_nat n) 0 n p
              rx ry phi cx cy theta1 theta2)
  end.

(** The answers of Go's library at the arguments that the half circle of
    radius 1 from [(1, 0)] to [(-1, 0)] asks for in [ellipseToCenter]:
    [math.Sincos(0) = (0, 1)], [math.Acos(1) = 0] and
    [math.Acos(-1) = math.Pi]; [angleNorm] leaves the angle [0] where it is.
    At other arguments the table answers NaN. *)
Definition halfCircleLibrary : Library :=
  mkLibrary
    (fun x => if x =? 0 then 0 else NaN)
    (fun x => if x =? 0 then 1 else NaN)
    (fun x => if x =? 1 then 0 else if x =? -1 then Pi else NaN)
    (fun x => if x =? 0 then 0 else NaN).
End Binary64.
(** ** Vocabulary of the statements *)

(** a point with finite coordinates *)
Definition pt (x y : R) : Point := mkPoint (Fin x) (Fin y).

(** NaN or a value in the half-open unit interval *)
Definition unitOrNaN (x : float64) : Prop :=
  x = NaN \/ exists r : R, x = Fin r /\ 0 <= r < 1.

(** two values are in ascending order when both are present *)
Definition ascending (x1 x2 : float64) : Prop :=
  forall u v : R, x1 = Fin u -> x2 = Fin v -> u <= v.


(** The loop of [bisectionMethod], pass by pass.  A bracket is the pair
    [(xmin, xmax)]; [midpoint] is the estimate [x] that a pass starts with,
    [closeEnough] the test on which the loop returns [x], and [bisect] what
    a pass that does not return does to the bracket. *)
Definition midpoint (b : float64 * float64) : float64 :=
  ((fst b + snd b) / 2)%f64.

Definition closeEnough (f : float64 -> float64) (y toleranceX toleranceY : float64)
    (b : float64 * float64) : bool :=
  ((Abs (f (midpoint b) - y) <? toleranceY)
   || (Abs (snd b - fst b) / 2 <? toleranceX))%f64.

Definition bisect (f : float64 -> float64) (y : float64)
    (b : float64 * float64) : float64 * float64 :=
  if (f (midpoint b) - y >? 0)%f64 then (fst b, midpoint b)
  else (midpoint b, snd b).

(** the first of three differences that is not the zero vector *)
Definition firstNonZero (a b c : Point) : option Point :=
  if negb (isZeroPoint a) then Some a
  else if negb (isZeroPoint b) then Some b
  else if negb (isZeroPoint c) then Some c
  else None.

(** the right-hand normal of length [d] along a tangent direction, the zero
    point when there is no direction *)
Definition normalAlong (dir : option Point) (d : float64) : Point :=
  match dir with
  | Some n => Norm (Rot90CW n) d
  | None => PointZero
  end.

(** the command emitted by iteration [i] of the loop of [flattenEllipse] *)
Definition arcLine (rx ry phi cx cy theta1 theta2 : float64) (n i : Z) : Cmd :=
  let t := (float64_of_int (i + 1) / float64_of_int n)%f64 in
  let e := ellipsePos rx ry phi cx cy (theta1 + (theta2 - theta1) * t)%f64 in
  LineToCmd (X e) (Y e).

(** the line command to a point *)
Definition lineToPoint (e : Point) : Cmd := LineToCmd (X e) (Y e).

(** linear interpolation on the reals *)
Definition lerp (a b t : R) : R := a + (b - a) * t.

(** the curvature numerator [s2nom] and the squared chord [denom^2] that
    [flattenSmoothCubicBezier] computes from the first three control points *)
Definition s2nomR (x0 y0 x1 y1 x2 y2 : R) : R :=
  (x2 - x0) * (y1 - y0) - (y2 - y0) * (x1 - x0).
Definition denom2R (x0 y0 x1 y1 : R) : R :=
  (x1 - x0) * (x1 - x0) + (y1 - y0) * (y1 - y0).

(** the loop of [flattenSmoothCubicBezier] leaves at its first pass *)
Definition singleChord (p0 p1 p2 p3 : Point) (d flatness : float64) : bool :=
  match flattenSmoothStep p0 p1 p2 p3 d flatness with
  | None => true
  | Some t => (t >=? 1)%f64
  end.

(** a segment without inflection points on which the tighter of two
    tolerances emits fewer commands *)
Definition refinementP0 : Point := pt 0 0.
Definition refinementP1 : Point := pt (-3) 0.
Definition refinementP2 : Point := pt (-3) (-1).
Definition refinementP3 : Point := pt 4 2.


(** ** Vocabulary of the further properties *)

(** the real number held by a finite [float64]; zero otherwise *)
Definition realOf (x : float64) : R :=
  match x with Fin r => r | _ => 0 end.

(** the position on a quadratic and on a cubic, on the reals, one coordinate *)
Definition quadR (a0 a1 a2 t : R) : R :=
  a0 * (1 - 2 * t + t * t) + a1 * (2 * t - 2 * t * t) + a2 * (t * t).
Definition cubicR (a0 a1 a2 a3 t : R) : R :=
  a0 * (1 - 3 * t + 3 * t * t - t * t * t)
  + a1 * (3 * t - 6 * t * t + 3 * t * t * t)
  + a2 * (3 * t * t - 3 * t * t * t)
  + a3 * (t * t * t).

(** what [quadraticBezierDeriv], [cubicBezierDeriv] and [cubicBezierDeriv2]
    compute, on the reals, one coordinate *)
Definition quadDerivR (a0 a1 a2 t : R) : R :=
  a0 * (-2 + 2 * t) + a1 * (1 - 2 * t) + a2 * (2 * t).
Definition cubicDerivR (a0 a1 a2 a3 t : R) : R :=
  a0 * (-3 + 6 * t - 3 * t * t) + a1 * (3 - 12 * t + 9 * t * t)
  + a2 * (6 * t - 9 * t * t) + a3 * (3 * t * t).
Definition cubicDeriv2R (a0 a1 a2 a3 t : R) : R :=
  a0 * (6 - 6 * t) + a1 * (18 * t - 12) + a2 * (6 - 18 * t) + a3 * (6 * t).

(** a point with finite coordinates of magnitude at most [B] *)
Definition boundedPoint (B : R) (p : Point) : Prop :=
  exists x y : R, p = pt x y /\ Rabs x <= B /\ Rabs y <= B.

(** a result that is not a panic *)
Definition noPanic {A : Type} (r : result A) : Prop :=
  match r with Panic _ => False | _ => True end.

(** the two kinds of path commands *)
Definition isLineTo (c : Cmd) : bool :=
  match c with LineToCmd _ _ => true | QuadToCmd _ _ _ _ => false end.
Definition isQuadTo (c : Cmd) : bool :=
  match c with QuadToCmd _ _ _ _ => true | LineToCmd _ _ => false end.

(** [q] is [p] followed by line commands only *)
Definition extendsByLines (p q : Path) : Prop :=
  exists ls : Path, q = p ++ ls /\ forallb isLineTo ls = true.

(** a result that, when it is a path, extends [p] by lines *)
Definition extendsResult (p : Path) (r : result Path) : Prop :=
  match r with Ok q => extendsByLines p q | _ => True end.

(** the three arc points that iteration [i] of the loop of
    [ellipseToBeziers] looks at, the control point it derives from them, and
    the command it emits *)
Definition arcStart (rx ry phi cx cy theta1 theta2 : float64) (i : Z) : Point :=
  ellipsePos rx ry phi cx cy
    (theta1 + (theta2 - theta1) * (float64_of_int (i + 0) / 16))%f64.
Definition arcMid (rx ry phi cx cy theta1 theta2 : float64) (i : Z) : Point :=
  ellipsePos rx ry phi cx cy
    (theta1 + (theta2 - theta1)
              * (float64_of_int (i + 0) / 16 + float64_of_int (i + 1) / 16) / 2)%f64.
Definition arcEnd (rx ry phi cx cy theta1 theta2 : float64) (i : Z) : Point :=
  ellipsePos rx ry phi cx cy
    (theta1 + (theta2 - theta1) * (float64_of_int (i + 1) / 16))%f64.
Definition arcControl (rx ry phi cx cy theta1 theta2 : float64) (i : Z) : Point :=
  Sub (Sub (Mul (arcMid rx ry phi cx cy theta1 theta2 i) 2)
           (Mul (arcStart rx ry phi cx cy theta1 theta2 i) 0.5))
      (Mul (arcEnd rx ry phi cx cy theta1 theta2 i) 0.5).
Definition arcQuad (rx ry phi cx cy theta1 theta2 : float64) (i : Z) : Cmd :=
  let c := arcControl rx ry phi cx cy theta1 theta2 i in
  let e := arcEnd rx ry phi cx cy theta1 theta2 i in
  QuadToCmd (X c) (Y c) (X e) (Y e).

(** a rectangle with finite position and size *)
Definition finiteRect (x y w h : R) : Rect.Rect :=
  Rect.mkRect (Fin x) (Fin y) (Fin w) (Fin h).

(** a rectangle of zero width or height, which [Add] takes for empty *)
Definition flat (r : Rect.Rect) : bool :=
  ((Rect.W r == 0) || (Rect.H r == 0))%f64.

(** [a] encompasses [b]: the left and lower edge of [a] are not beyond those
    of [b], nor are the right and upper edge of [b] beyond those of [a] *)
Definition encompasses (a b : Rect.Rect) : bool :=
  (Rect.X a <=? Rect.X b)%f64 && (Rect.Y a <=? Rect.Y b)%f64
  && (Rect.X b + Rect.W b <=? Rect.X a + Rect.W a)%f64
  && (Rect.Y b + Rect.H b <=? Rect.Y a + Rect.H a)%f64.
(** * Properties *)

(** ** Computing with finite values *)

Lemma fadd_Fin (a b : R) : fadd (Fin a) (Fin b) = Fin (a + b).
Proof. reflexivity. Qed.

Lemma fsub_Fin (a b : R) : fsub (Fin a) (Fin b) = Fin (a - b).
Proof. reflexivity. Qed.

Lemma fmul_Fin (a b : R) : fmul (Fin a) (Fin b) = Fin (a * b).
Proof. reflexivity. Qed.

Lemma fneg_Fin (a : R) : fneg (Fin a) = Fin (- a).
Proof. reflexivity. Qed.

Lemma feqb_Fin (a b : R) : feqb (Fin a) (Fin b) = Reqb a b.
Proof. reflexivity. Qed.

Lemma fltb_Fin (a b : R) : fltb (Fin a) (Fin b) = Rltb a b.
Proof. reflexivity. Qed.

Lemma fleb_Fin (a b : R) : fleb (Fin a) (Fin b) = Rltb a b || Reqb a b.
Proof. reflexivity. Qed.

Lemma fneb_Fin (a b : R) : fneb (Fin a) (Fin b) = negb (Reqb a b).
Proof. reflexivity. Qed.

Lemma Abs_Fin (a : R) : Abs (Fin a) = Fin (Rabs a).
Proof. reflexivity. Qed.

Lemma Hypot_Fin (a b : R) : Hypot (Fin a) (Fin b) = Fin (sqrt (a * a + b * b)).
Proof. reflexivity. Qed.

Lemma fdiv_Fin (a b : R) : b <> 0 -> fdiv (Fin a) (Fin b) = Fin (a / b).
Proof. intros H; simpl; now rewrite Reqb_false. Qed.

Lemma Sqrt_Fin (a : R) : 0 <= a -> Sqrt (Fin a) = Fin (sqrt a).
Proof. intros H; simpl; now rewrite Rltb_false. Qed.

Create Rewrite HintDb f64.
#[local] Hint Rewrite fadd_Fin fsub_Fin fmul_Fin fneg_Fin
  feqb_Fin fltb_Fin fleb_Fin fneb_Fin Abs_Fin Hypot_Fin : f64.

(** decide the comparisons that linear arithmetic settles *)
Ltac rdecide :=
  repeat match goal with
  | |- context [Reqb ?a ?b] =>
      first [ rewrite (Reqb_true a b) by lra | rewrite (Reqb_false a b) by lra ]
  | |- context [Rltb ?a ?b] =>
      first [ rewrite (Rltb_true a b) by lra | rewrite (Rltb_false a b) by lra ]
  end.

Ltac fsimp := repeat (progress (autorewrite with f64; rdecide)).

(** evaluate finite arithmetic, side conditions by linear arithmetic *)
Ltac feval :=
  repeat first
    [ progress autorewrite with f64
    | rewrite fdiv_Fin by lra
    | rewrite Sqrt_Fin by lra
    | progress rdecide ].

Lemma feqb_eq (x y : float64) : feqb x y = true -> x = y.
Proof.
  destruct x, y; simpl; try discriminate; try reflexivity.
  intros H. apply Reqb_spec in H. now subst.
Qed.

Lemma fleb_Fin_le (a b : R) : a <= b -> fleb (Fin a) (Fin b) = true.
Proof.
  intros H. rewrite fleb_Fin. destruct (Rlt_dec a b).
  - now rewrite Rltb_true.
  - rewrite (Reqb_true a b) by lra. apply orb_true_r.
Qed.

Lemma fleb_Fin_gt (a b : R) : b < a -> fleb (Fin a) (Fin b) = false.
Proof.
  intros H. rewrite fleb_Fin, Rltb_false, Reqb_false by lra. reflexivity.
Qed.

Lemma fleb_Fin_inv (a b : R) : fleb (Fin a) (Fin b) = true -> a <= b.
Proof.
  rewrite fleb_Fin. intros H. apply orb_true_iff in H as [H | H].
  - apply Rltb_spec in H. lra.
  - apply Reqb_spec in H. lra.
Qed.

Lemma sqrt_of_square (r x : R) : 0 <= r -> r * r = x -> sqrt x = r.
Proof. intros Hr <-. now apply sqrt_square. Qed.

Lemma Rabs_of_square (a x : R) : 0 <= a -> a * a = x * x -> Rabs x = a.
Proof.
  intros Ha H. unfold Rabs. destruct (Rcase_abs x); nra.
Qed.

(** ** RootFinder *)

Lemma clip01_Fin (r : R) :
  (clip01 (Fin r) = NaN /\ ~ 0 <= r < 1) \/
  (clip01 (Fin r) = Fin r /\ 0 <= r < 1).
Proof.
  unfold clip01; fsimp.
  destruct (Rlt_dec 1 r); destruct (Rlt_dec r 0); destruct (Req_dec_T 1 r);
    rdecide; simpl;
    (left; split; [reflexivity | lra]) || (right; split; [reflexivity | lra]).
Qed.

Lemma clip01_Fin_inv (x : float64) (r : R) :
  clip01 x = Fin r -> x = Fin r /\ 0 <= r < 1.
Proof.
  destruct x as [| | u |]; try discriminate.
  destruct (clip01_Fin u) as [[E _] | [E Hu]]; rewrite E; try discriminate.
  intros [= <-]. split; [reflexivity | exact Hu].
Qed.

Lemma clip01_unitOrNaN (x : float64) : unitOrNaN (clip01 x).
Proof.
  destruct x as [| | r |]; try (now left).
  destruct (clip01_Fin r) as [[E _] | [E Hr]]; rewrite E; [now left | right].
  now exists r.
Qed.

Lemma unitOrNaN_zero : unitOrNaN (Fin 0).
Proof. right. exists 0. split; [reflexivity | lra]. Qed.

Lemma unitOrNaN_NaN : unitOrNaN NaN.
Proof. now left. Qed.

(** whatever the coefficients, the solver reports NaN or values in [[0, 1)] *)
Lemma solveQuadraticFormula_unitOrNaN (a b c : float64) :
  unitOrNaN (fst (solveQuadraticFormula a b c))
  /\ unitOrNaN (snd (solveQuadraticFormula a b c)).
Proof.
  pose proof clip01_unitOrNaN. pose proof unitOrNaN_zero. pose proof unitOrNaN_NaN.
  unfold solveQuadraticFormula.
  repeat match goal with
  | |- context [if ?c then _ else _] => destruct c
  end; cbn [fst snd]; auto.
Qed.

Lemma ascending_NaN_r (x : float64) : ascending x NaN.
Proof. intros u v _ H; discriminate. Qed.

(** zero is below whatever the clip lets through *)
Lemma ascending_zero_clip (x : float64) : ascending (Fin 0) (clip01 x).
Proof.
  intros u v [= <-] E. apply clip01_Fin_inv in E as [_ Hv]. lra.
Qed.

(** the swap [if x1 > x2 { x1, x2 = x2, x1 }] puts two values in order, and
    the clip keeps the order of what it lets through *)
Lemma ascending_sorted_clip (x y : float64) :
  let '(u, v) := if (x >? y)%f64 then (y, x) else (x, y) in
  ascending (clip01 u) (clip01 v).
Proof.
  destruct (x >? y)%f64 eqn:E; intros u v Hu Hv;
    apply clip01_Fin_inv in Hu as [-> _]; apply clip01_Fin_inv in Hv as [-> _].
  - rewrite fltb_Fin in E. apply Rltb_spec in E. lra.
  - rewrite fltb_Fin in E.
    destruct (Rlt_dec v u) as [L | L]; [| lra].
    rewrite Rltb_true in E by assumption. discriminate.
Qed.

(** whatever the coefficients, two reported values come in ascending order *)
Lemma solveQuadraticFormula_ascending (a b c : float64) :
  ascending (fst (solveQuadraticFormula a b c))
            (snd (solveQuadraticFormula a b c)).
Proof.
  unfold solveQuadraticFormula.
  destruct (a == 0)%f64.
  - destruct (b == 0)%f64; [destruct (c == 0)%f64 |];
      cbn [fst snd]; apply ascending_NaN_r.
  - destruct (c == 0)%f64; [cbn [fst snd]; apply ascending_zero_clip |].
    cbv zeta.
    destruct (_ <? 0)%f64; [cbn [fst snd]; apply ascending_NaN_r |].
    destruct (_ == 0)%f64; [cbn [fst snd]; apply ascending_NaN_r |].
    match goal with
    | |- context [if (?x >? ?y)%f64 then _ else _] =>
        pose proof (ascending_sorted_clip x y) as H;
        destruct (x >? y)%f64
    end; exact H.
Qed.


(** C7.  With [a = b = 0] the solver answers [(0, NaN)] when [c] is zero
    too and [(NaN, NaN)] for every other [c]; the first answer differs from
    the second, its first component not being NaN. *)
Theorem solveQuadraticFormula_all_zero (c : float64) :
  solveQuadraticFormula (Fin 0) (Fin 0) c
  = (if (c == Fin 0)%f64 then (Fin 0, NaN) else (NaN, NaN))
  /\ solveQuadraticFormula (Fin 0) (Fin 0) (Fin 0) = (Fin 0, NaN)
  /\ (Fin 0, NaN) <> (NaN, NaN)
  /\ IsNaN (fst (solveQuadraticFormula (Fin 0) (Fin 0) (Fin 0))) = false.
Proof.
  unfold solveQuadraticFormula. fsimp.
  repeat split; try reflexivity. discriminate.
Qed.

(** ** Quadrature *)

(** The hard-coded weights of [gaussLegendre5] add up to 2.000001, so a
    constant and the identity are integrated with a relative excess of
    5e-7. *)
Lemma gaussLegendre5_constant (k a b : R) :
  gaussLegendre5 (fun _ => Fin k) (Fin a) (Fin b) = Fin (1.0000005 * k * (b - a)).
Proof. unfold gaussLegendre5; cbv zeta. feval. f_equal. lra. Qed.

Lemma gaussLegendre5_identity (a b : R) :
  gaussLegendre5 (fun x => x) (Fin a) (Fin b)
  = Fin (1.0000005 * ((b * b - a * a) / 2)).
Proof. unfold gaussLegendre5; cbv zeta. feval. f_equal. lra. Qed.

(** The two test integrals are not exact. *)
Lemma gaussLegendre5_not_exact :
  gaussLegendre5 (fun _ => Fin 1) (Fin 0) (Fin 1) <> Fin 1
  /\ gaussLegendre5 (fun x => x) (Fin 0) (Fin 2) <> Fin 2.
Proof.
  rewrite gaussLegendre5_constant, gaussLegendre5_identity.
  split; intros [= H]; lra.
Qed.

(** C4, amended.  Order-5 quadrature integrates [f(x) = 1] over [[0, 1]] to
    1.0000005 and [f(x) = x] over [[0, 2]] to 2.000001. *)
Theorem gaussLegendre5_test_values :
  gaussLegendre5 (fun _ => Fin 1) (Fin 0) (Fin 1) = Fin 1.0000005
  /\ gaussLegendre5 (fun x => x) (Fin 0) (Fin 2) = Fin 2.000001.
Proof.
  rewrite gaussLegendre5_constant, gaussLegendre5_identity.
  split; f_equal; lra.
Qed.

(** The loop returns the midpoint of the bracket reached after [k] passes,
    where [k] is the first pass at which a tolerance is met or the counter
    has come to [MaxIterations]. *)
Lemma bisectionLoop_iter (f : float64 -> float64) (y tolX tolY : float64) :
  forall (fuel n : nat) (b : float64 * float64),
    (n <= MaxIterations)%nat -> (MaxIterations < fuel + n)%nat ->
    exists k : nat,
      (n + k <= MaxIterations)%nat
      /\ bisectionLoop fuel f y tolX tolY n (fst b) (snd b)
         = Ok (midpoint (Nat.iter k (bisect f y) b), (n + k)%nat)
      /\ (forall j : nat, (j < k)%nat ->
            closeEnough f y tolX tolY (Nat.iter j (bisect f y) b) = false)
      /\ ((n + k)%nat = MaxIterations
          \/ closeEnough f y tolX tolY (Nat.iter k (bisect f y) b) = true).
Proof.
  induction fuel as [| fuel IH]; intros n b Hn Hfuel.
  - simpl in Hfuel. lia.
  - cbn [bisectionLoop]. cbv zeta.
    change ((fst b + snd b) / 2)%f64 with (midpoint b).
    destruct (MaxIterations <=? n)%nat eqn:Hcap.
    + apply Nat.leb_le in Hcap. exists 0%nat. rewrite Nat.add_0_r.
      split; [assumption |]. split; [reflexivity |].
      split; [intros j Hj; lia | left; lia].
    + apply Nat.leb_gt in Hcap.
      change ((Abs (f (midpoint b) - y) <? tolY)
              || (Abs (snd b - fst b) / 2 <? tolX))%f64
        with (closeEnough f y tolX tolY b).
      destruct (closeEnough f y tolX tolY b) eqn:Hclose.
      * exists 0%nat. rewrite Nat.add_0_r.
        split; [lia |]. split; [reflexivity |].
        split; [intros j Hj; lia | right; exact Hclose].
      * assert (E : (if (f (midpoint b) - y >? 0)%f64
                     then bisectionLoop fuel f y tolX tolY (S n) (fst b) (midpoint b)
                     else bisectionLoop fuel f y tolX tolY (S n) (midpoint b) (snd b))
                    = bisectionLoop fuel f y tolX tolY (S n)
                        (fst (bisect f y b)) (snd (bisect f y b))).
        { unfold bisect. destruct (f (midpoint b) - y >? 0)%f64; reflexivity. }
        rewrite E.
        destruct (IH (S n) (bisect f y b)) as (k & Hk & Ek & Hbefore & Hlast);
          [lia | lia |].
        exists (S k). rewrite Nat.iter_succ_r.
        replace (n + S k)%nat with (S n + k)%nat by lia.
        split; [assumption |]. split; [exact Ek |]. split; [| exact Hlast].
        intros [| j] Hj; [exact Hclose |].
        rewrite Nat.iter_succ_r. apply Hbefore. lia.
Qed.

(** bisecting a real bracket gives a real bracket inside it *)
Lemma bisect_inside (f : float64 -> float64) (y : float64) :
  forall (k : nat) (a b : R), a <= b ->
    exists a' b' : R,
      Nat.iter k (bisect f y) (Fin a, Fin b) = (Fin a', Fin b')
      /\ a <= a' /\ a' <= b' /\ b' <= b.
Proof.
  induction k as [| k IH]; intros a b Hab.
  - exists a, b. split; [reflexivity | lra].
  - destruct (IH a b Hab) as (a' & b' & E & H1 & H2 & H3).
    rewrite Nat.iter_succ, E. unfold bisect, midpoint. cbn [fst snd].
    feval.
    destruct (_ >? _)%f64.
    + exists a', ((a' + b') / 2). split; [reflexivity | lra].
    + exists ((a' + b') / 2), b'. split; [reflexivity | lra].
Qed.

(** settle absolute values of terms whose sign linear arithmetic decides *)
Ltac rabs :=
  repeat match goal with
  | |- context [Rabs ?x] =>
      first [ rewrite (Rabs_right x) by lra | rewrite (Rabs_left x) by lra ]
  end.

(** a run of the loop that bisects seven times and returns at the eighth
    pass *)
Lemma bisectionMethod_seven_passes (spare : nat) :
  bisectionMethod (8 + spare) (fun x => x) (Fin 0.7) (Fin 0) (Fin 1)
  = Ok (Fin 0.69921875)
  /\ Nat.iter 7 (bisect (fun x => x) (Fin 0.7)) (Fin 0, Fin 1)
     = (Fin 0.6953125, Fin 0.703125).
Proof.
  assert (step : forall (fuel n : nat) (a b m : R),
            (n < MaxIterations)%nat -> m = (a + b) / 2 ->
            0.001 <= Rabs (m - 0.7) -> 0.001 <= Rabs (b - a) / 2 ->
            bisectionLoop (S fuel) (fun x => x) (Fin 0.7) (Fin 0.001) (Fin 0.001)
              n (Fin a) (Fin b)
            = if Rltb 0 (m - 0.7)
              then bisectionLoop fuel (fun x => x) (Fin 0.7) (Fin 0.001) (Fin 0.001)
                     (S n) (Fin a) (Fin m)
              else bisectionLoop fuel (fun x => x) (Fin 0.7) (Fin 0.001) (Fin 0.001)
                     (S n) (Fin m) (Fin b)).
  { intros fuel n a b m Hn -> H1 H2. cbn [bisectionLoop]. cbv zeta.
    replace (MaxIterations <=? n)%nat with false
      by (symmetry; apply Nat.leb_gt; assumption).
    feval. rewrite ?(Rltb_false (Rabs _) 0.001), ?(Rltb_false (Rabs _ / 2) 0.001) by lra.
    reflexivity. }
  assert (stop : forall (fuel n : nat) (a b : R),
            (n < MaxIterations)%nat -> Rabs ((a + b) / 2 - 0.7) < 0.001 ->
            bisectionLoop (S fuel) (fun x => x) (Fin 0.7) (Fin 0.001) (Fin 0.001)
              n (Fin a) (Fin b)
            = Ok (Fin ((a + b) / 2), n)).
  { intros fuel n a b Hn H1. cbn [bisectionLoop]. cbv zeta.
    replace (MaxIterations <=? n)%nat with false
      by (symmetry; apply Nat.leb_gt; assumption).
    feval. rewrite ?(Rltb_true (Rabs _) 0.001) by lra. reflexivity. }
  assert (bstep : forall a b m : R, m = (a + b) / 2 ->
            bisect (fun x => x) (Fin 0.7) (Fin a, Fin b)
            = if Rltb 0 (m - 0.7) then (Fin a, Fin m) else (Fin m, Fin b)).
  { intros a b m ->. unfold bisect, midpoint. cbn [fst snd]. feval. reflexivity. }
  assert (M : forall n : nat, (n < 7)%nat -> (n < MaxIterations)%nat)
    by (unfold MaxIterations; lia).
  split.
  - unfold bisectionMethod. cbv zeta. feval.
    replace (Rabs (1 - 0) * 0.001) with 0.001 by (rabs; lra).
    change (8 + spare)%nat with (S (S (S (S (S (S (S (S spare)))))))).
    rewrite (step _ 0%nat 0 1 0.5) by first [apply M; lia | lra | rabs; lra].
    rewrite (Rltb_false 0 (0.5 - 0.7)) by lra.
    rewrite (step _ 1%nat 0.5 1 0.75) by first [apply M; lia | lra | rabs; lra].
    rewrite (Rltb_true 0 (0.75 - 0.7)) by lra.
    rewrite (step _ 2%nat 0.5 0.75 0.625) by first [apply M; lia | lra | rabs; lra].
    rewrite (Rltb_false 0 (0.625 - 0.7)) by lra.
    rewrite (step _ 3%nat 0.625 0.75 0.6875) by first [apply M; lia | lra | rabs; lra].
    rewrite (Rltb_false 0 (0.6875 - 0.7)) by lra.
    rewrite (step _ 4%nat 0.6875 0.75 0.71875) by first [apply M; lia | lra | rabs; lra].
    rewrite (Rltb_true 0 (0.71875 - 0.7)) by lra.
    rewrite (step _ 5%nat 0.6875 0.71875 0.703125)
      by first [apply M; lia | lra | rabs; lra].
    rewrite (Rltb_true 0 (0.703125 - 0.7)) by lra.
    rewrite (step _ 6%nat 0.6875 0.703125 0.6953125)
      by first [apply M; lia | lra | rabs; lra].
    rewrite (Rltb_false 0 (0.6953125 - 0.7)) by lra.
    rewrite (stop _ 7%nat 0.6953125 0.703125)
      by first [unfold MaxIterations; lia | rabs; lra].
    cbn [bind]. do 2 f_equal. lra.
  - cbn [Nat.iter nat_rect].
    rewrite (bstep 0 1 0.5), (Rltb_false 0 (0.5 - 0.7)) by lra.
    rewrite (bstep 0.5 1 0.75), (Rltb_true 0 (0.75 - 0.7)) by lra.
    rewrite (bstep 0.5 0.75 0.625), (Rltb_false 0 (0.625 - 0.7)) by lra.
    rewrite (bstep 0.625 0.75 0.6875), (Rltb_false 0 (0.6875 - 0.7)) by lra.
    rewrite (bstep 0.6875 0.75 0.71875), (Rltb_true 0 (0.71875 - 0.7)) by lra.
    rewrite (bstep 0.6875 0.71875 0.703125), (Rltb_true 0 (0.703125 - 0.7)) by lra.
    rewrite (bstep 0.6875 0.703125 0.6953125), (Rltb_false 0 (0.6953125 - 0.7)) by lra.
    reflexivity.
Qed.

(** C5.  With fuel above [MaxIterations], [bisectionMethod] returns for
    every function, target and bracket (NaN and infinities included): it
    neither panics nor loops on.  What it returns is the midpoint of the
    bracket reached after [n] bisections, where [n <= 100] is the first
    pass at which one of the two tolerances is met, or 100 when none is met
    before the cap.  For a real bracket [a <= b] whose ends are at most
    [8e307] in magnitude, so that their sum stays below the largest
    binary64 number, the value returned lies in [[a, b]]. *)
Theorem bisectionMethod_best_midpoint (f : float64 -> float64)
    (y xmin xmax : float64) (fuel : nat) :
  (MaxIterations < fuel)%nat ->
  let toleranceX := (Abs (xmax - xmin) * 0.001)%f64 in
  let toleranceY := (Abs (f xmax - f xmin) * 0.001)%f64 in
  let bracket (k : nat) := Nat.iter k (bisect f y) (xmin, xmax) in
  exists n : nat,
    (n <= 100)%nat
    /\ bisectionMethod fuel f y xmin xmax = Ok (midpoint (bracket n))
    /\ (forall k : nat, (k < n)%nat ->
          closeEnough f y toleranceX toleranceY (bracket k) = false)
    /\ (n = 100%nat \/ closeEnough f y toleranceX toleranceY (bracket n) = true)
    /\ forall a b : R,
         xmin = Fin a -> xmax = Fin b -> a <= b ->
         Rabs a <= 8e307 -> Rabs b <= 8e307 ->
         exists x : R, midpoint (bracket n) = Fin x /\ a <= x <= b.
Proof.
  intros Hfuel toleranceX toleranceY bracket.
  destruct (bisectionLoop_iter f y toleranceX toleranceY fuel 0 (xmin, xmax))
    as (n & Hn & E & Hbefore & Hlast); [unfold MaxIterations; lia | lia |].
  cbn [fst snd] in E. rewrite Nat.add_0_l in *.
  exists n. split; [exact Hn |]. split.
  { unfold bisectionMethod. cbv zeta. fold toleranceX toleranceY.
    rewrite E. reflexivity. }
  split; [exact Hbefore |]. split; [exact Hlast |].
  intros a b -> -> Hab _ _.
  destruct (bisect_inside f y n a b Hab) as (a' & b' & Eb & H1 & H2 & H3).
  unfold bracket. rewrite Eb. unfold midpoint. cbn [fst snd]. feval.
  exists ((a' + b') / 2). split; [reflexivity | lra].
Qed.

Lemma bisectionMethod_best_midpoint_witness :
  (MaxIterations < 101)%nat
  /\ bisectionMethod 101 (fun x => x) (Fin 0.7) (Fin 0) (Fin 1) = Ok (Fin 0.69921875)
  /\ Nat.iter 7 (bisect (fun x => x) (Fin 0.7)) (Fin 0, Fin 1)
     = (Fin 0.6953125, Fin 0.703125)
  /\ let toleranceX := (Abs (Fin 1 - Fin 0) * 0.001)%f64 in
     let toleranceY := (Abs (Fin 1 - Fin 0) * 0.001)%f64 in
     let bracket (k : nat) :=
       Nat.iter k (bisect (fun x => x) (Fin 0.7)) (Fin 0, Fin 1) in
     exists n : nat,
       (n <= 100)%nat
       /\ bisectionMethod 101 (fun x => x) (Fin 0.7) (Fin 0) (Fin 1)
          = Ok (midpoint (bracket n))
       /\ (forall k : nat, (k < n)%nat ->
             closeEnough (fun x => x) (Fin 0.7) toleranceX toleranceY (bracket k)
             = false)
       /\ (n = 100%nat
           \/ closeEnough (fun x => x) (Fin 0.7) toleranceX toleranceY (bracket n)
              = true)
       /\ forall a b : R,
            Fin 0 = Fin a -> Fin 1 = Fin b -> a <= b ->
            Rabs a <= 8e307 -> Rabs b <= 8e307 ->
            exists x : R, midpoint (bracket n) = Fin x /\ a <= x <= b.
Proof.
  assert (Hf : (MaxIterations < 101)%nat) by (unfold MaxIterations; lia).
  split; [exact Hf |].
  split; [exact (proj1 (bisectionMethod_seven_passes 93)) |].
  split; [exact (proj2 (bisectionMethod_seven_passes 93)) |].
  exact (bisectionMethod_best_midpoint (fun x => x) (Fin 0.7) (Fin 0) (Fin 1) 101 Hf).
Defined.




(** ** Cubic Beziers: end-point normals and degenerate segments *)

Lemma feqb_Fin_neq (x : float64) (a : R) : x <> Fin a -> feqb x (Fin a) = false.
Proof.
  destruct x; simpl; try reflexivity.
  intros H. apply Reqb_false. intros E. apply H. now subst.
Qed.

(** C9.  [cubicBezierNormal] returns at [t = 0] and at [t = 1], for all
    control points: the normal along the first non-zero difference of control
    points, the zero point when all of them coincide.  For every other [t],
    NaN and the infinities included, it panics. *)
Theorem cubicBezierNormal_endpoints_only (p0 p1 p2 p3 : Point) (t d : float64) :
  (t = Fin 0
   /\ cubicBezierNormal p0 p1 p2 p3 t d
      = Ok (normalAlong (firstNonZero (Sub p1 p0) (Sub p2 p0) (Sub p3 p0)) d))
  \/ (t = Fin 1
      /\ cubicBezierNormal p0 p1 p2 p3 t d
         = Ok (normalAlong (firstNonZero (Sub p3 p2) (Sub p3 p1) (Sub p3 p0)) d))
  \/ (t <> Fin 0 /\ t <> Fin 1
      /\ cubicBezierNormal p0 p1 p2 p3 t d = Panic "not implemented").
Proof.
  unfold cubicBezierNormal, firstNonZero, normalAlong; cbv zeta.
  destruct (t == 0)%f64 eqn:E0; [| destruct (t == 1)%f64 eqn:E1].
  - left. split; [now apply feqb_eq |].
    destruct (isZeroPoint (Sub p1 p0)) eqn:H1; cbn [negb]; rewrite ?H1; [| reflexivity].
    destruct (isZeroPoint (Sub p2 p0)) eqn:H2; cbn [negb]; rewrite ?H2; [| reflexivity].
    destruct (isZeroPoint (Sub p3 p0)) eqn:H3; reflexivity.
  - right; left. split; [now apply feqb_eq |].
    destruct (isZeroPoint (Sub p3 p2)) eqn:H1; cbn [negb]; rewrite ?H1; [| reflexivity].
    destruct (isZeroPoint (Sub p3 p1)) eqn:H2; cbn [negb]; rewrite ?H2; [| reflexivity].
    destruct (isZeroPoint (Sub p3 p0)) eqn:H3; reflexivity.
  - right; right. repeat split; try reflexivity; intros ->; simpl in *;
      rewrite Reqb_true in * by reflexivity; discriminate.
Qed.

Lemma isZeroPoint_Sub_self (x y : R) :
  isZeroPoint (Sub (pt x y) (pt x y)) = true.
Proof. unfold isZeroPoint, Sub, pt; cbn [X Y]; feval; reflexivity. Qed.

Lemma cubicBezierNormal_coincident (x y : R) (t d : float64) :
  t = Fin 0 \/ t = Fin 1 ->
  cubicBezierNormal (pt x y) (pt x y) (pt x y) (pt x y) t d = Ok PointZero.
Proof.
  intros [-> | ->]; unfold cubicBezierNormal; cbv zeta; feval;
    repeat (rewrite isZeroPoint_Sub_self; cbv iota); reflexivity.
Qed.

(** a segment whose four control points coincide at [(x, y)] *)
Lemma addCubicBezierLine_coincident (p : Path) (x y : R) (t d : float64) :
  t = Fin 0 \/ t = Fin 1 ->
  addCubicBezierLine p (pt x y) (pt x y) (pt x y) (pt x y) t d
  = Ok (if Reqb y x then p else LineTo p (Fin x) (Fin y)).
Proof.
  intros Ht. unfold addCubicBezierLine.
  unfold addCubicBezierLineGuard, pt; cbn [X Y]; feval. fold (pt x y).
  destruct (Reqb y x); cbn [andb orb]; [reflexivity |].
  rewrite (cubicBezierNormal_coincident x y t d Ht).
  destruct Ht as [-> | ->]; feval; cbn [bind];
    destruct (d != 0)%f64; cbn [bind]; unfold Add, PointZero, pt; cbn [X Y]; feval;
    unfold LineTo; repeat f_equal; lra.
Qed.

Lemma findInflectionPointsCubicBezier_coincident (x y : R) :
  findInflectionPointsCubicBezier (pt x y) (pt x y) (pt x y) (pt x y)
  = (Fin 0, NaN).
Proof.
  unfold findInflectionPointsCubicBezier, pt; cbn [X Y]; cbv zeta; feval.
  unfold solveQuadraticFormula; feval. reflexivity.
Qed.

Lemma findInflectionPointRange_NaN (p0 p1 p2 p3 : Point) (flatness : float64) :
  findInflectionPointRange p0 p1 p2 p3 NaN flatness = Ok (Inf, Inf).
Proof. reflexivity. Qed.

Lemma findInflectionPointRange_coincident (x y : R) (flatness : float64) :
  findInflectionPointRange (pt x y) (pt x y) (pt x y) (pt x y) (Fin 0) flatness
  = Ok (Fin 0, Fin 1).
Proof.
  unfold findInflectionPointRange; cbn [IsNaN]; feval; cbn [orb negb]; cbv zeta.
  repeat (rewrite isZeroPoint_Sub_self; cbv iota). reflexivity.
Qed.

Lemma strokeCubicBezier_coincident (fuel : nat) (x y : R) (d flatness : float64) :
  strokeCubicBezier fuel (pt x y) (pt x y) (pt x y) (pt x y) d flatness
  = addCubicBezierLine [] (pt x y) (pt x y) (pt x y) (pt x y) (Fin 1) d.
Proof.
  unfold strokeCubicBezier; cbv zeta.
  rewrite findInflectionPointsCubicBezier_coincident. cbn [IsNaN andb].
  rewrite findInflectionPointRange_coincident, findInflectionPointRange_NaN.
  cbn [bind]. feval. reflexivity.
Qed.

(** C1, the code at a failing input.  For the segment whose four control
    points are [(1, 2)], [addCubicBezierLine] appends a line command at
    [t = 0] and at [t = 1], for every offset [d], and [strokeCubicBezier]
    emits that command: the guard compares [p0.Y] with [p3.X]. *)
Theorem addCubicBezierLine_degenerate_emits :
  let p := pt 1 2 in
  forall d : float64,
    addCubicBezierLine [] p p p p (Fin 0) d = Ok [LineToCmd (Fin 1) (Fin 2)]
    /\ addCubicBezierLine [] p p p p (Fin 1) d = Ok [LineToCmd (Fin 1) (Fin 2)]
    /\ forall (fuel : nat) (flatness : float64),
         strokeCubicBezier fuel p p p p d flatness = Ok [LineToCmd (Fin 1) (Fin 2)].
Proof.
  intros p d. unfold p.
  assert (E : forall t, t = Fin 0 \/ t = Fin 1 ->
            addCubicBezierLine [] (pt 1 2) (pt 1 2) (pt 1 2) (pt 1 2) t d
            = Ok [LineToCmd (Fin 1) (Fin 2)]).
  { intros t Ht. rewrite addCubicBezierLine_coincident by assumption.
    rewrite Reqb_false by lra. reflexivity. }
  split; [apply E; now left | split; [apply E; now right |]].
  intros fuel flatness.
  rewrite strokeCubicBezier_coincident. apply E. now right.
Qed.

(** ** Elliptical arcs *)

Lemma gaussLegendre5_NaN_l (f : float64 -> float64) (b : float64) :
  gaussLegendre5 f NaN b = NaN.
Proof. unfold gaussLegendre5; cbv zeta. destruct b; reflexivity. Qed.

Lemma gaussLegendre5_NaN_r (f : float64 -> float64) (a : float64) :
  gaussLegendre5 f a NaN = NaN.
Proof. unfold gaussLegendre5; cbv zeta. destruct a; reflexivity. Qed.

(** C8.  [ellipseLength] is symmetric in its two angles. *)
Theorem ellipseLength_symmetric (rx ry theta1 theta2 : float64) :
  ellipseLength rx ry theta1 theta2 = ellipseLength rx ry theta2 theta1.
Proof.
  unfold ellipseLength.
  destruct theta1 as [| | a |], theta2 as [| | b |]; cbn [fltb];
    rewrite ?gaussLegendre5_NaN_l, ?gaussLegendre5_NaN_r; try reflexivity.
  destruct (Rlt_dec a b) as [Hab | Hab]; [| destruct (Rlt_dec b a) as [Hba | Hba]].
  - rewrite (Rltb_true a b), (Rltb_false b a) by lra. reflexivity.
  - rewrite (Rltb_true b a), (Rltb_false a b) by lra. reflexivity.
  - replace b with a by lra. reflexivity.
Qed.

Lemma flattenEllipseLoop_spec (rx ry phi cx cy theta1 theta2 : float64) (n : Z) :
  forall (todo : nat) (i : Z) (p : Path),
    flattenEllipseLoop todo i n p rx ry phi cx cy theta1 theta2
    = p ++ map (fun k => arcLine rx ry phi cx cy theta1 theta2 n (i + Z.of_nat k))
             (seq 0 todo).
Proof.
  induction todo as [| todo IH]; intros i p.
  - simpl. now rewrite app_nil_r.
  - cbn [flattenEllipseLoop]. rewrite IH. unfold LineTo.
    rewrite <- app_assoc. f_equal.
    cbn [seq map app]. rewrite <- seq_shift, map_map.
    f_equal.
    + unfold arcLine. now rewrite Z.add_0_r.
    + apply map_ext. intros k. f_equal. lia.
Qed.

Lemma Acos_range (x : float64) :
  Acos x = NaN \/ exists r : R, Acos x = Fin r /\ 0 <= r <= PI.
Proof.
  destruct x as [| | a |]; try (now left).
  unfold Acos. destruct (_ || _); [now left |].
  right. exists (acos a). split; [reflexivity | apply acos_bound].
Qed.

(** the sweep adjustment of [delta] in [ellipseToCenter] keeps it within a
    full turn *)
Lemma sweep_delta_bound (sweep flip : bool) (da : float64) :
  (da = NaN \/ exists r : R, da = Fin r /\ 0 <= r <= PI) ->
  let delta := if flip then (- da)%f64 else da in
  let delta :=
    if negb sweep && (delta >? 0)%f64 then (delta - 2 * Pi)%f64
    else if sweep && (delta <? 0)%f64 then (delta + 2 * Pi)%f64
    else delta in
  delta = NaN \/ exists r : R, delta = Fin r /\ Rabs r <= 2 * PI.
Proof.
  intros [-> | (r & -> & Hr)]; cbv zeta.
  - left. destruct flip, sweep; reflexivity.
  - right. pose proof PI_RGT_0 as Hpi. unfold Pi.
    destruct flip, sweep; cbn [negb andb]; feval.
    + destruct (Rlt_dec (- r) 0); feval; eexists; (split; [reflexivity |]);
        apply Rabs_le; lra.
    + destruct (Rlt_dec 0 (- r)); feval; eexists; (split; [reflexivity |]);
        apply Rabs_le; lra.
    + destruct (Rlt_dec r 0); feval; eexists; (split; [reflexivity |]);
        apply Rabs_le; lra.
    + destruct (Rlt_dec 0 r); feval; eexists; (split; [reflexivity |]);
        apply Rabs_le; lra.
Qed.

(** name the value of the outermost [let] and step into its body *)
Ltac name_let :=
  match goal with
  | |- context C [let x := ?v in @?b x] =>
      let x' := fresh x in
      set (x' := v);
      let g := context C [b x'] in
      change g; cbv beta
  end.

(** The two angles of the center form are at most one full turn apart. *)
Lemma ellipseToCenter_span (x1 y1 rx ry phi : float64) (large sweep : bool)
    (x2 y2 cx cy : float64) (t1 t2 : R) :
  ellipseToCenter x1 y1 rx ry phi large sweep x2 y2 = (cx, cy, Fin t1, Fin t2) ->
  Rabs (t2 - t1) <= 2 * PI.
Proof.
  pose proof PI_RGT_0 as Hpi.
  cbv beta delta [ellipseToCenter]. repeat name_let.
  match goal with
  | |- context [match (if ?c then _ else _) with pair _ _ => _ end] => case c
  end.
  all: repeat name_let.
  all: case (_ && _);
    [ intros [= _ _ <- <-]; rewrite Rminus_diag, Rabs_R0; lra |].
  all: intros [= _ _ Hth Hsum]; rewrite Hth in Hsum.
  all: pose proof (sweep_delta_bound sweep (ux * vy - uy * vx <? 0)%f64 _
                     (Acos_range deltaAcos0)) as Hd;
    cbv zeta in Hd; fold delta in Hd; fold delta0 in Hd; fold delta1 in Hd.
  all: destruct Hd as [E | (r & E & Hr)]; rewrite E in Hsum;
    [ discriminate
    | injection Hsum as <-; replace (t1 + r - t1) with r by ring; exact Hr ].
Qed.

Lemma int_of_float64_floor (a : R) :
  0 <= a <= 64 -> int_of_float64 (Fin a) = Some (Zfloor a).
Proof.
  intros Ha. unfold int_of_float64, Ztrunc. rewrite Rltb_false by lra.
  pose proof (Zfloor_bound a) as Hb.
  assert (0 <= Zfloor a)%Z by (apply Zfloor_lub; simpl; lra).
  assert (Zfloor a <= 64)%Z by (apply le_IZR; lra).
  replace (- 2 ^ 63 <=? Zfloor a)%Z with true by (symmetry; apply Z.leb_le; lia).
  replace (Zfloor a <? 2 ^ 63)%Z with true by (symmetry; apply Z.ltb_lt; lia).
  reflexivity.
Qed.

Lemma last_map_seq {A : Type} (f : nat -> A) (n : nat) (d : A) :
  last (map f (seq 0 (S n))) d = f n.
Proof.
  rewrite seq_S, map_app. cbn [map]. apply last_last.
Qed.

Lemma fmul_1_r (x : float64) : (x * Fin 1)%f64 = x.
Proof.
  destruct x as [| | a |]; cbn [fmul]; rewrite ?(Reqb_false 1 0), ?(Rltb_false 1 0) by lra;
    try reflexivity.
  f_equal. ring.
Qed.

(** an arc of at most [3 / 32] radians has no segment *)
Lemma segmentCount_small (t1 t2 : R) :
  Rabs (t2 - t1) <= 3 / 32 ->
  int_of_float64 (Abs (Fin t2 - Fin t1) / 2 / Pi * 64)%f64 = Some 0%Z.
Proof.
  intros Hs. pose proof PI2_3_2 as Hpi. pose proof (Rabs_pos (t2 - t1)) as Habs.
  unfold Pi. feval.
  set (a := Rabs (t2 - t1) / 2 / PI * 64).
  assert (Ha : 0 <= a < 1).
  { unfold a. split.
    - apply Rmult_le_pos; [| lra]. apply Rmult_le_pos; [lra |].
      apply Rlt_le, Rinv_0_lt_compat; lra.
    - replace (Rabs (t2 - t1) / 2 / PI * 64) with (Rabs (t2 - t1) * 32 / PI)
        by (field; lra).
      apply Rmult_lt_reg_r with (r := PI); [lra |].
      replace (Rabs (t2 - t1) * 32 / PI * PI) with (Rabs (t2 - t1) * 32)
        by (field; lra).
      lra. }
  rewrite (int_of_float64_floor a) by lra.
  rewrite (Zfloor_eq 0 a) by (simpl; lra). reflexivity.
Qed.

(** a span of at most a full turn has at most 64 segments *)
Lemma segmentCount_defined (t1 t2 : R) :
  Rabs (t2 - t1) <= 2 * PI ->
  exists n : Z,
    (0 <= n <= 64)%Z
    /\ int_of_float64 (Abs (Fin t2 - Fin t1) / 2 / Pi * 64)%f64 = Some n.
Proof.
  intros Hspan. pose proof PI_RGT_0 as Hpi. pose proof (Rabs_pos (t2 - t1)) as Habs.
  unfold Pi. feval.
  set (a := Rabs (t2 - t1) / 2 / PI * 64).
  assert (Ha : 0 <= a <= 64).
  { unfold a. split.
    - apply Rmult_le_pos; [| lra]. apply Rmult_le_pos; [lra |].
      apply Rlt_le, Rinv_0_lt_compat; lra.
    - replace 64 with (2 * PI / 2 / PI * 64) at 2 by (field; lra).
      apply Rmult_le_compat_r; [lra |].
      apply Rmult_le_compat_r; [apply Rlt_le, Rinv_0_lt_compat; lra |]. lra. }
  exists (Zfloor a). split; [| apply int_of_float64_floor; exact Ha].
  split.
  - apply Zfloor_lub. simpl. lra.
  - apply le_IZR. pose proof (Zfloor_bound a) as Hb. lra.
Qed.

(** C10.  Let [n] be the segment count that the program computes,
    [int(math.Abs(theta2-theta1) / 2.0 / math.Pi * nFull)], from the angles
    of the center form; for finite angles it is defined and at most 64.
    [flattenEllipse] emits exactly [n] line commands, the one of iteration
    [k] going to the arc point at fraction [(k + 1) / n]; for a span of at
    most [3 / 32] radians it emits nothing; and when there is at least one
    segment the last command goes to the arc point at
    [theta1 + (theta2 - theta1)].  The count is the program's own, with the
    value of [math.Pi] and the rounding of the division: it is not always
    [floor (|theta2 - theta1| * 64 / (2 pi))]. *)
Theorem flattenEllipse_program_count (start : Point) (rx ry phi : float64)
    (largeArc sweep : bool) (end_ : Point) (cx cy theta1 theta2 : float64) :
  ellipseToCenter (X start) (Y start) rx ry phi largeArc sweep (X end_) (Y end_)
  = (cx, cy, theta1, theta2) ->
  (forall t1 t2 : R, theta1 = Fin t1 -> theta2 = Fin t2 ->
     exists n : Z,
       (0 <= n <= 64)%Z
       /\ int_of_float64 (Abs (theta2 - theta1) / 2 / Pi * 64)%f64 = Some n)
  /\ forall n : Z,
       int_of_float64 (Abs (theta2 - theta1) / 2 / Pi * 64)%f64 = Some n ->
       exists path : Path,
         flattenEllipse start rx ry phi largeArc sweep end_ = Some path
         /\ path = map (fun k => arcLine rx ry phi cx cy theta1 theta2 n (Z.of_nat k))
                     (seq 0 (Z.to_nat n))
         /\ List.length path = Z.to_nat n
         /\ (forall t1 t2 : R,
               theta1 = Fin t1 -> theta2 = Fin t2 -> Rabs (t2 - t1) <= 3 / 32 ->
               path = [])
         /\ ((1 <= n)%Z ->
             last path (LineToCmd (Fin 0) (Fin 0))
             = lineToPoint
                 (ellipsePos rx ry phi cx cy (theta1 + (theta2 - theta1))%f64)).
Proof.
  intros Hc. split.
  { intros t1 t2 -> ->. apply segmentCount_defined.
    exact (ellipseToCenter_span _ _ _ _ _ _ _ _ _ _ _ _ _ Hc). }
  intros n Hn.
  eexists. split; [| split; [reflexivity | split; [| split]]].
  - unfold flattenEllipse. rewrite Hc. cbv zeta. rewrite Hn.
    rewrite flattenEllipseLoop_spec. reflexivity.
  - now rewrite length_map, length_seq.
  - intros t1 t2 -> -> Hs.
    rewrite (segmentCount_small t1 t2 Hs) in Hn. injection Hn as <-. reflexivity.
  - intros Hn1.
    destruct (Z.to_nat n) as [| m] eqn:Em; [lia |].
    rewrite last_map_seq. unfold arcLine, lineToPoint; cbv zeta.
    replace (Z.of_nat m + 1)%Z with n by lia.
    unfold float64_of_int.
    assert (IZR n <> 0) by (apply not_0_IZR; lia).
    rewrite fdiv_Fin by assumption.
    replace (IZR n / IZR n) with 1 by (field; assumption).
    rewrite fmul_1_r. reflexivity.
Qed.

Lemma acos_opp_1 : acos (-1) = PI.
Proof. replace (-1) with (- (1)) by lra. rewrite acos_opp, acos_1. lra. Qed.

(** name the value of the outermost [let], show that it is [c], and
    substitute *)
Lemma angleNorm_0 : angleNorm (Fin 0) = Fin 0.
Proof.
  unfold angleNorm. f_equal.
  replace (0 / (2 * PI)) with (IZR 0) by (unfold Rdiv; ring).
  rewrite ZfloorZ. simpl. ring.
Qed.

Ltac norm_arg e :=
  lazymatch e with
  | 0 => fail
  | 1 => fail
  | -1 => fail
  | _ => first [ replace e with 0 by lra | replace e with 1 by lra
               | replace e with (-1) by lra ]
  end.

Ltac const_step :=
  first
    [ progress feval
    | progress rewrite ?angleNorm_0
    | progress cbv beta iota delta [Sin Cos Acos Min Max Pi andb orb negb]
    | progress rewrite ?sin_0, ?cos_0, ?sqrt_0, ?sqrt_1, ?acos_1, ?acos_opp_1
    | match goal with
      | |- context [sqrt ?e] => norm_arg e
      | |- context [acos ?e] => norm_arg e
      end ].

Ltac eval_let c :=
  match goal with
  | |- context [let x := ?v in _] =>
      let E := fresh "E" in
      assert (E : v = c);
      [ repeat const_step; first [ reflexivity | f_equal; lra ]
      | try rewrite E; clear E;
        match goal with
        | |- context C [let x := c in @?b x] =>
            let g := context C [b c] in change g; cbv beta
        end ]
  end.

Lemma halfCircle_center :
  ellipseToCenter (Fin 1) (Fin 0) (Fin 1) (Fin 1) (Fin 0) false true (Fin (-1)) (Fin 0)
  = (Fin 0, Fin 0, Fin 0, Fin PI).
Proof.
  pose proof PI_RGT_0 as Hpi.
  cbv beta delta [ellipseToCenter].
  rewrite feqb_Fin, (Reqb_false 1 (-1)) by lra. cbv beta iota delta [andb].
  eval_let (Fin 0). eval_let (Fin 1). eval_let (Fin 1). eval_let (Fin 0).
  eval_let (Fin 1).
  rewrite fltb_Fin, (Rltb_false 1 1) by lra. cbv beta iota.
  eval_let (Fin 0). eval_let (Fin 0). eval_let (Fin 0). eval_let (Fin 0).
  eval_let (Fin 0). eval_let (Fin 0). eval_let (Fin 0). eval_let (Fin 0).
  eval_let (Fin 1). eval_let (Fin 0). eval_let (Fin (-1)). eval_let (Fin 0).
  eval_let (Fin 0). eval_let (Fin 0). eval_let (Fin 0).
  eval_let (Fin (-1)). eval_let (Fin (-1)). eval_let (Fin PI). eval_let (Fin PI).
  eval_let (Fin PI).
  feval. repeat f_equal. lra.
Qed.

(** the half circle has 32 segments *)
Lemma halfCircle_count :
  int_of_float64 (Abs (Fin PI - Fin 0) / 2 / Pi * 64)%f64 = Some 32%Z.
Proof.
  pose proof PI_RGT_0 as Hpi. unfold Pi. feval.
  replace (Rabs (PI - 0) / 2 / PI * 64) with 32
    by (rewrite Rabs_right by lra; field; lra).
  rewrite int_of_float64_floor by lra.
  replace 32 with (IZR 32) by reflexivity. now rewrite ZfloorZ.
Qed.

Lemma flattenEllipse_program_count_witness :
  ellipseToCenter (X (pt 1 0)) (Y (pt 1 0)) (Fin 1) (Fin 1) (Fin 0) false true
    (X (pt (-1) 0)) (Y (pt (-1) 0))
  = (Fin 0, Fin 0, Fin 0, Fin PI)
  /\ int_of_float64 (Abs (Fin PI - Fin 0) / 2 / Pi * 64)%f64 = Some 32%Z
  /\ (forall t1 t2 : R, Fin 0 = Fin t1 -> Fin PI = Fin t2 ->
        exists n : Z,
          (0 <= n <= 64)%Z
          /\ int_of_float64 (Abs (Fin PI - Fin 0) / 2 / Pi * 64)%f64 = Some n)
  /\ forall n : Z,
       int_of_float64 (Abs (Fin PI - Fin 0) / 2 / Pi * 64)%f64 = Some n ->
       exists path : Path,
         flattenEllipse (pt 1 0) (Fin 1) (Fin 1) (Fin 0) false true (pt (-1) 0)
         = Some path
         /\ path = map (fun k => arcLine (Fin 1) (Fin 1) (Fin 0) (Fin 0) (Fin 0)
                                   (Fin 0) (Fin PI) n (Z.of_nat k))
                     (seq 0 (Z.to_nat n))
         /\ List.length path = Z.to_nat n
         /\ (forall t1 t2 : R,
               Fin 0 = Fin t1 -> Fin PI = Fin t2 -> Rabs (t2 - t1) <= 3 / 32 ->
               path = [])
         /\ ((1 <= n)%Z ->
             last path (LineToCmd (Fin 0) (Fin 0))
             = lineToPoint (ellipsePos (Fin 1) (Fin 1) (Fin 0) (Fin 0) (Fin 0)
                              (Fin 0 + (Fin PI - Fin 0))%f64)).
Proof.
  split; [exact halfCircle_center |].
  split; [exact halfCircle_count |].
  exact (flattenEllipse_program_count (pt 1 0) (Fin 1) (Fin 1) (Fin 0) false true
           (pt (-1) 0) (Fin 0) (Fin 0) (Fin 0) (Fin PI) halfCircle_center).
Defined.

(** ** The smooth flattener *)

Lemma Interpolate_pt (a b c d t : R) :
  Interpolate (pt a b) (pt c d) (Fin t) = pt (lerp a c t) (lerp b d t).
Proof. reflexivity. Qed.

Lemma splitCubicBezier_pt (x0 y0 x1 y1 x2 y2 x3 y3 t : R) :
  splitCubicBezier (pt x0 y0) (pt x1 y1) (pt x2 y2) (pt x3 y3) (Fin t)
  = (pt x0 y0,
     pt (lerp x0 x1 t) (lerp y0 y1 t),
     pt (lerp (lerp x0 x1 t) (lerp x1 x2 t) t) (lerp (lerp y0 y1 t) (lerp y1 y2 t) t),
     pt (lerp (lerp (lerp x0 x1 t) (lerp x1 x2 t) t)
              (lerp (lerp x1 x2 t) (lerp x2 x3 t) t) t)
        (lerp (lerp (lerp y0 y1 t) (lerp y1 y2 t) t)
              (lerp (lerp y1 y2 t) (lerp y2 y3 t) t) t),
     pt (lerp (lerp (lerp x0 x1 t) (lerp x1 x2 t) t)
              (lerp (lerp x1 x2 t) (lerp x2 x3 t) t) t)
        (lerp (lerp (lerp y0 y1 t) (lerp y1 y2 t) t)
              (lerp (lerp y1 y2 t) (lerp y2 y3 t) t) t),
     pt (lerp (lerp x1 x2 t) (lerp x2 x3 t) t) (lerp (lerp y1 y2 t) (lerp y2 y3 t) t),
     pt (lerp x2 x3 t) (lerp y2 y3 t),
     pt x3 y3).
Proof. reflexivity. Qed.

(** The value of one step, for finite control points, offset and tolerance. *)
Lemma flattenSmoothStep_zero (x0 y0 x1 y1 x2 y2 : R) (p3 : Point) (d flatness : float64) :
  s2nomR x0 y0 x1 y1 x2 y2 * sqrt (denom2R x0 y0 x1 y1) = 0 ->
  flattenSmoothStep (pt x0 y0) (pt x1 y1) (pt x2 y2) p3 d flatness = None.
Proof.
  intros H. unfold flattenSmoothStep, pt; cbn [X Y]. autorewrite with f64.
  fold (s2nomR x0 y0 x1 y1 x2 y2). fold (denom2R x0 y0 x1 y1).
  now rewrite Reqb_true.
Qed.

Lemma flattenSmoothStep_finite (x0 y0 x1 y1 x2 y2 : R) (p3 : Point) (d eps : R) :
  let s2nom := s2nomR x0 y0 x1 y1 x2 y2 in
  let r1 := sqrt (denom2R x0 y0 x1 y1) in
  let s2 := s2nom / r1 in
  let k := Rabs (1 + 2 * d * s2 / 3 / r1 / r1) in
  s2nom * r1 <> 0 -> 0 < eps ->
  flattenSmoothStep (pt x0 y0) (pt x1 y1) (pt x2 y2) p3 (Fin d) (Fin eps)
  = Some (if Reqb k 0 then PInf else Fin (2 * sqrt (eps / k / 3 / Rabs s2))).
Proof.
  intros s2nom r1 s2 k Hnz Heps.
  assert (Hr1 : r1 <> 0) by (intros E; apply Hnz; rewrite E; ring).
  assert (Hs2nom : s2nom <> 0) by (intros E; apply Hnz; rewrite E; ring).
  assert (Hs2 : s2 <> 0).
  { unfold s2. intros E. apply Hs2nom.
    replace s2nom with (s2nom / r1 * r1) by (field; assumption). rewrite E. ring. }
  assert (Habs : 0 < Rabs s2) by now apply Rabs_pos_lt.
  unfold flattenSmoothStep, pt; cbn [X Y]. autorewrite with f64.
  fold (s2nomR x0 y0 x1 y1 x2 y2). fold (denom2R x0 y0 x1 y1).
  fold s2nom r1. rewrite (Reqb_false (s2nom * r1) 0) by assumption.
  rewrite (fdiv_Fin s2nom r1) by assumption. fold s2. autorewrite with f64.
  rewrite (fdiv_Fin (2 * d * s2) 3) by lra.
  rewrite (fdiv_Fin _ r1) by assumption. rewrite (fdiv_Fin _ r1) by assumption.
  autorewrite with f64. fold k.
  destruct (Req_dec_T k 0) as [Hk | Hk].
  - rewrite Hk, (Reqb_true 0 0) by reflexivity.
    cbn [fdiv]. rewrite (Reqb_true 0 0), (Reqb_false eps 0), (Rltb_false eps 0) by lra.
    cbn [inf_of fdiv]. rewrite (Rltb_false 3 0) by lra. cbn [inf_of].
    cbn [fdiv]. rewrite (Rltb_false (Rabs s2) 0) by lra. cbn [inf_of Sqrt fmul].
    rewrite (Reqb_false 2 0), (Rltb_false 2 0) by lra. reflexivity.
  - rewrite (Reqb_false k 0) by assumption.
    assert (Hkpos : 0 < k) by (pose proof (Rabs_pos (1 + 2 * d * s2 / 3 / r1 / r1)); unfold k in *; lra).
    rewrite (fdiv_Fin eps k) by assumption.
    rewrite (fdiv_Fin _ 3) by lra.
    rewrite (fdiv_Fin _ (Rabs s2)) by lra.
    rewrite Sqrt_Fin.
    + autorewrite with f64. reflexivity.
    + apply Rlt_le. apply Rdiv_lt_0_compat; [| assumption].
      apply Rdiv_lt_0_compat; [| lra]. now apply Rdiv_lt_0_compat.
Qed.

Lemma flattenSmoothCubicBezier_singleChord (fuel : nat) (p : Path)
    (p0 p1 p2 p3 : Point) (d flatness : float64) :
  singleChord p0 p1 p2 p3 d flatness = true ->
  flattenSmoothCubicBezier (S fuel) p p0 p1 p2 p3 d flatness
  = addCubicBezierLine p p0 p1 p2 p3 (Fin 1) d.
Proof.
  unfold singleChord, flattenSmoothCubicBezier. intros H.
  cbn [flattenSmoothLoop]. rewrite fltb_Fin, (Rltb_true 0 1) by lra.
  destruct (flattenSmoothStep p0 p1 p2 p3 d flatness) as [t |].
  - rewrite H. reflexivity.
  - reflexivity.
Qed.



(** *** One pass of the loop, without offset *)

Lemma flattenSmoothStep_no_offset (x0 y0 x1 y1 x2 y2 : R) (p3 : Point) (eps r a : R) :
  0 < eps -> 0 < r -> r * r = denom2R x0 y0 x1 y1 ->
  0 < a -> a * a = s2nomR x0 y0 x1 y1 x2 y2 * s2nomR x0 y0 x1 y1 x2 y2 ->
  flattenSmoothStep (pt x0 y0) (pt x1 y1) (pt x2 y2) p3 (Fin 0) (Fin eps)
  = Some (Fin (2 * sqrt (eps * r / (3 * a)))).
Proof.
  intros Heps Hr Hrr Ha Haa.
  assert (Er : sqrt (denom2R x0 y0 x1 y1) = r) by (apply sqrt_of_square; lra).
  assert (Ea : Rabs (s2nomR x0 y0 x1 y1 x2 y2) = a) by (apply Rabs_of_square; lra).
  assert (Hs : s2nomR x0 y0 x1 y1 x2 y2 <> 0)
    by (intros E; rewrite E in Ea; rewrite Rabs_R0 in Ea; lra).
  rewrite flattenSmoothStep_finite; rewrite ?Er; try assumption.
  - replace (1 + 2 * 0 * (s2nomR x0 y0 x1 y1 x2 y2 / r) / 3 / r / r) with 1
      by (field; lra).
    rewrite Rabs_R1, (Reqb_false 1 0) by lra.
    assert (Eq : Rabs (s2nomR x0 y0 x1 y1 x2 y2 / r) = a / r).
    { unfold Rdiv. rewrite Rabs_mult, Ea, (Rabs_right (/ r)); [reflexivity |].
      apply Rle_ge, Rlt_le, Rinv_0_lt_compat. assumption. }
    rewrite Eq. do 4 f_equal. field. lra.
  - intros E. apply Rmult_integral in E as [E | E]; [contradiction | lra].
Qed.

Lemma flattenSmoothLoop_subdivide (fuel : nat) (p : Path)
    (x0 y0 x1 y1 x2 y2 x3 y3 eps t0 r a t : R) :
  t0 < 1 -> 0 < eps -> 0 < r -> r * r = denom2R x0 y0 x1 y1 ->
  0 < a -> a * a = s2nomR x0 y0 x1 y1 x2 y2 * s2nomR x0 y0 x1 y1 x2 y2 ->
  0 <= t < 1 -> t * t * (3 * a) = 4 * (eps * r) ->
  flattenSmoothLoop (S fuel) p (pt x0 y0) (pt x1 y1) (pt x2 y2) (pt x3 y3)
    (Fin 0) (Fin eps) (Fin t0)
  = (let '(_, _, _, _, q0, q1, q2, q3) :=
       splitCubicBezier (pt x0 y0) (pt x1 y1) (pt x2 y2) (pt x3 y3) (Fin t) in
     p' <- addCubicBezierLine p q0 q1 q2 q3 (Fin 0) (Fin 0) ;;
     flattenSmoothLoop fuel p' q0 q1 q2 q3 (Fin 0) (Fin eps) (Fin t)).
Proof.
  intros Ht0 Heps Hr Hrr Ha Haa Ht Htt.
  cbn [flattenSmoothLoop]. rewrite fltb_Fin, (Rltb_true t0 1) by assumption.
  rewrite (flattenSmoothStep_no_offset x0 y0 x1 y1 x2 y2 _ eps r a) by assumption.
  replace (2 * sqrt (eps * r / (3 * a))) with t.
  - rewrite fleb_Fin_gt by lra. reflexivity.
  - assert (E : sqrt (eps * r / (3 * a)) = t / 2).
    { apply sqrt_of_square; [lra |]. field_simplify_eq; [nra | lra]. }
    rewrite E. lra.
Qed.

Lemma flattenSmoothLoop_stop (fuel : nat) (p : Path)
    (x0 y0 x1 y1 x2 y2 : R) (p3 : Point) (eps t0 : R) :
  t0 < 1 -> 0 < eps ->
  s2nomR x0 y0 x1 y1 x2 y2 <> 0 ->
  9 * (s2nomR x0 y0 x1 y1 x2 y2 * s2nomR x0 y0 x1 y1 x2 y2)
  <= 16 * (eps * eps) * denom2R x0 y0 x1 y1 ->
  flattenSmoothLoop (S fuel) p (pt x0 y0) (pt x1 y1) (pt x2 y2) p3
    (Fin 0) (Fin eps) (Fin t0)
  = Ok (p, (pt x0 y0, pt x1 y1, pt x2 y2, p3)).
Proof.
  intros Ht0 Heps Hs Hbig.
  set (s := s2nomR x0 y0 x1 y1 x2 y2) in *.
  set (D := denom2R x0 y0 x1 y1) in *.
  assert (Hss : 0 < s * s) by nra.
  assert (HD : 0 < D) by nra.
  pose proof (sqrt_lt_R0 D HD) as Hr.
  pose proof (sqrt_sqrt D (Rlt_le _ _ HD)) as Hrr.
  pose proof (Rabs_pos_lt s Hs) as Ha.
  assert (Haa : Rabs s * Rabs s = s * s)
    by (unfold Rabs; destruct (Rcase_abs s); ring).
  cbn [flattenSmoothLoop]. rewrite fltb_Fin, (Rltb_true t0 1) by assumption.
  rewrite (flattenSmoothStep_no_offset x0 y0 x1 y1 x2 y2 _ eps (sqrt D) (Rabs s))
    by (assumption || lra).
  rewrite fleb_Fin_le; [reflexivity |].
  set (r := sqrt D) in *. set (a := Rabs s) in *.
  assert (H34 : 3 * a <= 4 * (eps * r)).
  { apply Rsqr_incr_0_var; [unfold Rsqr; nra |].
    apply Rmult_le_pos; [lra |]. apply Rmult_le_pos; lra. }
  assert (Hq : 1 / 4 <= eps * r / (3 * a)).
  { apply Rmult_le_reg_r with (3 * a); [lra |].
    replace (eps * r / (3 * a) * (3 * a)) with (eps * r) by (field; lra). lra. }
  assert (Hhalf : 1 / 2 <= sqrt (eps * r / (3 * a))).
  { replace (1 / 2) with (sqrt (1 / 4)).
    - now apply sqrt_le_1_alt.
    - apply sqrt_of_square; lra. }
  lra.
Qed.

Lemma addCubicBezierLine_start_pt (p : Path) (x0 y0 x3 y3 : R) (p1 p2 : Point) :
  x0 <> x3 ->
  addCubicBezierLine p (pt x0 y0) p1 p2 (pt x3 y3) (Fin 0) (Fin 0)
  = Ok (LineTo p (Fin x0) (Fin y0)).
Proof.
  intros H. unfold addCubicBezierLine, addCubicBezierLineGuard, pt; cbn [X Y].
  rewrite (feqb_Fin x0 x3), (Reqb_false x0 x3) by assumption. cbn [andb].
  rewrite feqb_Fin, fneb_Fin, (Reqb_true 0 0) by reflexivity. reflexivity.
Qed.

Lemma addCubicBezierLine_end_pt (p : Path) (x0 y0 x3 y3 : R) (p1 p2 : Point) :
  x0 <> x3 ->
  addCubicBezierLine p (pt x0 y0) p1 p2 (pt x3 y3) (Fin 1) (Fin 0)
  = Ok (LineTo p (Fin x3) (Fin y3)).
Proof.
  intros H. unfold addCubicBezierLine, addCubicBezierLineGuard, pt; cbn [X Y].
  rewrite (feqb_Fin x0 x3), (Reqb_false x0 x3) by assumption. cbn [andb].
  rewrite !feqb_Fin, fneb_Fin, (Reqb_false 1 0), (Reqb_true 1 1), (Reqb_true 0 0)
    by lra.
  reflexivity.
Qed.

(** *** A segment on which a tighter tolerance emits fewer commands *)

Lemma solveQuadraticFormula_negative_discriminant (a b c : R) :
  a <> 0 -> c <> 0 -> b * b - 4 * a * c < 0 ->
  solveQuadraticFormula (Fin a) (Fin b) (Fin c) = (NaN, NaN).
Proof.
  intros Ha Hc HD. unfold solveQuadraticFormula.
  rewrite !feqb_Fin, (Reqb_false a 0), (Reqb_false c 0) by assumption.
  autorewrite with f64. now rewrite Rltb_true.
Qed.

Lemma refinement_segment_smooth :
  findInflectionPointsCubicBezier refinementP0 refinementP1 refinementP2 refinementP3
  = (NaN, NaN).
Proof.
  unfold findInflectionPointsCubicBezier, refinementP0, refinementP1, refinementP2,
    refinementP3, pt; cbn [X Y]. autorewrite with f64.
  apply solveQuadraticFormula_negative_discriminant; lra.
Qed.

(** replace a point by its value in lowest terms *)
Ltac norm_pt c1 c2 :=
  match goal with
  | |- context [pt ?e1 ?e2] =>
      progress (replace (pt e1 e2) with (pt c1 c2)
                 by (unfold lerp; f_equal; lra))
  end.

Ltac side := unfold denom2R, s2nomR; lra.

Lemma refinement_segment_loose (fuel : nat) :
  strokeCubicBezier (S (S (S fuel))) refinementP0 refinementP1 refinementP2 refinementP3
    (Fin 0) (Fin (3 / 25))
  = Ok [LineToCmd (Fin (-238 / 125)) (Fin (-4 / 25));
        LineToCmd (Fin (76 / 125)) (Fin (16 / 25));
        LineToCmd (Fin 4) (Fin 2)].
Proof.
  unfold strokeCubicBezier. rewrite refinement_segment_smooth. cbn [IsNaN andb].
  unfold flattenSmoothCubicBezier, refinementP0, refinementP1, refinementP2, refinementP3.
  rewrite (flattenSmoothLoop_subdivide _ _ 0 0 (-3) 0 (-3) (-1) 4 2 (3/25) 0 3 3 (2/5))
    by side.
  rewrite splitCubicBezier_pt. cbv beta iota.
  norm_pt (-238/125) (-4/25). norm_pt (-47/25) (-4/25). norm_pt (-1/5) (1/5).
  rewrite addCubicBezierLine_start_pt by lra. cbn [bind].
  rewrite (flattenSmoothLoop_subdivide _ _ (-238/125) (-4/25) (-47/25) (-4/25)
             (-1/5) (1/5) 4 2 (3/25) (2/5) (3/125) (27/3125) (2/3))
    by side.
  rewrite splitCubicBezier_pt. cbv beta iota.
  norm_pt (76/125) (16/25). norm_pt (37/25) (24/25). norm_pt (13/5) (7/5).
  rewrite addCubicBezierLine_start_pt by lra. cbn [bind].
  rewrite flattenSmoothLoop_stop by side. cbn [bind].
  rewrite addCubicBezierLine_end_pt by lra. reflexivity.
Qed.



(** ** Runs of the program on binary64 *)

(** the value of [math.Pi] lies below pi *)
Lemma PI_between : 884279719003555 / 281474976710656 < PI < 3.2.
Proof.
  pose proof (PI_2_3_7_ineq 9) as [Hl Hu].
  unfold sum_f_R0, tg_alt, PI_2_3_7_tg, Ratan_seq in Hl, Hu.
  simpl in Hl, Hu.
  lra.
Qed.

Section Binary64Runs.
Import Floats.PrimFloat Floats.SpecFloat Floats.FloatOps.
#[local] Set Warnings "-inexact-float".


Lemma toR_zero : Binary64.toR 0%float = 0.
Proof.
  unfold Binary64.toR.
  replace (Prim2SF 0%float) with (S754_zero false) by (vm_compute; reflexivity).
  reflexivity.
Qed.


Lemma toR_Pi : Binary64.toR Binary64.Pi = 884279719003555 / 281474976710656.
Proof.
  unfold Binary64.toR.
  replace (Prim2SF Binary64.Pi) with (S754_finite false 7074237752028440 (-51))
    by (vm_compute; reflexivity).
  cbv beta iota. change (0 <=? -51)%Z with false. cbv iota.
  change (2 ^ (- (-51)))%Z with 2251799813685248%Z. lra.
Qed.


(** On the bracket [[1e308, 1.5e308]] the sum of the two ends overflows:
    for the identity and the target [1.2e308] the program runs its hundred
    passes and returns the positive infinity, which is outside the
    bracket. *)
Lemma bisectionMethod_leaves_bracket :
  (1e308 <=? 1.5e308)%float = true
  /\ Binary64.bisectionLoop 101 (fun x => x) 1.2e308%float
       (Binary64.Abs (1.5e308 - 1e308) * 0.001)%float
       (Binary64.Abs (1.5e308 - 1e308) * 0.001)%float
       0 1e308%float 1.5e308%float
     = Ok (infinity, 100%nat)
  /\ Binary64.bisectionMethod 101 (fun x => x) 1.2e308%float 1e308%float 1.5e308%float
     = Ok infinity
  /\ (infinity <=? 1.5e308)%float = false.
Proof. repeat split; vm_compute; reflexivity. Qed.


(** On the half circle of radius 1 from [(1, 0)] to [(-1, 0)] the center
    form has the angles [0] and [math.Pi], and the program emits 32 line
    commands, where [floor (|theta2 - theta1| * 64 / (2 pi))] is 31:
    [math.Pi] lies below pi. *)
Lemma flattenEllipse_half_circle_count :
  Binary64.ellipseToCenter Binary64.halfCircleLibrary 1%float 0%float 1%float 1%float
    0%float false true (-1)%float 0%float
  = (0%float, 0%float, 0%float, Binary64.Pi)
  /\ option_map (@List.length Binary64.Cmd)
       (Binary64.flattenEllipse Binary64.halfCircleLibrary
          (Binary64.mkPoint 1%float 0%float) 1%float 1%float 0%float false true
          (Binary64.mkPoint (-1)%float 0%float))
     = Some 32%nat
  /\ Zfloor (Rabs (Binary64.toR Binary64.Pi - Binary64.toR 0%float) * 64 / (2 * PI))
     = 31%Z.
Proof.
  split; [vm_compute; reflexivity |]. split; [vm_compute; reflexivity |].
  rewrite toR_Pi, toR_zero. pose proof PI_between as [Hl Hu].
  apply Zfloor_eq. rewrite Rabs_right by lra.
  assert (Hpos : 0 < PI) by lra.
  set (p := 884279719003555 / 281474976710656) in *.
  replace ((p - 0) * 64 / (2 * PI)) with (32 * p / PI) by (field; lra).
  split.
  - apply Rmult_le_reg_r with (r := PI); [assumption |].
    replace (32 * p / PI * PI) with (32 * p) by (field; lra).
    unfold p. simpl IZR. lra.
  - apply Rmult_lt_reg_r with (r := PI); [assumption |].
    replace (32 * p / PI * PI) with (32 * p) by (field; lra).
    simpl IZR. lra.
Qed.

(** On inputs away from rounding and overflow the two readings agree: the
    bisection that takes seven passes returns the same estimate, the two
    test integrals of order-5 quadrature are the doubles nearest to
    [1.0000005] and [2.000001], and the sentinel of the solver is the same. *)
Lemma readings_agree :
  Binary64.bisectionMethod 101 (fun x => x) 0.7%float 0%float 1%float
  = Ok 0.69921875%float
  /\ Binary64.gaussLegendre5 (fun _ => 1%float) 0%float 1%float = 1.0000005%float
  /\ Binary64.gaussLegendre5 (fun x => x) 0%float 2%float = 2.000001%float
  /\ Binary64.solveQuadraticFormula 0%float 0%float 0%float = (0%float, nan).
Proof. repeat split; vm_compute; reflexivity. Qed.

End Binary64Runs.

(** ** Further properties: Bezier curves *)

Lemma quadraticBezierDeriv_pt (x0 y0 x1 y1 x2 y2 t : R) :
  quadraticBezierDeriv (pt x0 y0) (pt x1 y1) (pt x2 y2) (Fin t)
  = pt (quadDerivR x0 x1 x2 t) (quadDerivR y0 y1 y2 t).
Proof. reflexivity. Qed.

(** the derivative of a polynomial of degree three *)
Lemma derivable_pt_lim_poly3 (c0 c1 c2 c3 t : R) :
  derivable_pt_lim (fun s => c0 + c1 * s + c2 * (s * s) + c3 * (s * s * s)) t
    (c1 + 2 * c2 * t + 3 * c3 * (t * t)).
Proof.
  assert (H : derivable_pt_lim
                (fct_cte c0 + mult_real_fct c1 id + mult_real_fct c2 (id * id)
                 + mult_real_fct c3 (id * id * id))%F t
                (0 + c1 * 1 + c2 * (1 * id t + id t * 1)
                 + c3 * ((1 * id t + id t * 1) * id t + (id * id)%F t * 1))).
  { repeat first
      [ apply derivable_pt_lim_plus | apply derivable_pt_lim_scal
      | apply derivable_pt_lim_mult | apply derivable_pt_lim_id
      | apply derivable_pt_lim_const ]. }
  replace (c1 + 2 * c2 * t + 3 * c3 * (t * t))
    with (0 + c1 * 1 + c2 * (1 * id t + id t * 1)
          + c3 * ((1 * id t + id t * 1) * id t + (id * id)%F t * 1))
    by (unfold mult_fct, id; ring).
  apply (derivable_pt_lim_ext _ _ _ _ (fun z => eq_refl) H).
Qed.

Lemma derivable_pt_lim_cubicR (a0 a1 a2 a3 t : R) :
  derivable_pt_lim (cubicR a0 a1 a2 a3) t (cubicDerivR a0 a1 a2 a3 t).
Proof.
  apply (derivable_pt_lim_ext
           (fun s => a0 + (3 * a1 - 3 * a0) * s + (3 * a0 - 6 * a1 + 3 * a2) * (s * s)
                     + (a3 - 3 * a2 + 3 * a1 - a0) * (s * s * s))).
  - intros z. unfold cubicR. ring.
  - replace (cubicDerivR a0 a1 a2 a3 t)
      with ((3 * a1 - 3 * a0) + 2 * (3 * a0 - 6 * a1 + 3 * a2) * t
            + 3 * (a3 - 3 * a2 + 3 * a1 - a0) * (t * t))
      by (unfold cubicDerivR; ring).
    apply derivable_pt_lim_poly3.
Qed.

Lemma derivable_pt_lim_cubicDerivR (a0 a1 a2 a3 t : R) :
  derivable_pt_lim (cubicDerivR a0 a1 a2 a3) t (cubicDeriv2R a0 a1 a2 a3 t).
Proof.
  apply (derivable_pt_lim_ext
           (fun s => (3 * a1 - 3 * a0) + (6 * a0 - 12 * a1 + 6 * a2) * s
                     + (3 * a3 - 9 * a2 + 9 * a1 - 3 * a0) * (s * s)
                     + 0 * (s * s * s))).
  - intros z. unfold cubicDerivR. ring.
  - replace (cubicDeriv2R a0 a1 a2 a3 t)
      with ((6 * a0 - 12 * a1 + 6 * a2)
            + 2 * (3 * a3 - 9 * a2 + 9 * a1 - 3 * a0) * t + 3 * 0 * (t * t))
      by (unfold cubicDeriv2R; ring).
    apply derivable_pt_lim_poly3.
Qed.

Lemma derivable_pt_lim_quadR (a0 a1 a2 t : R) :
  derivable_pt_lim (quadR a0 a1 a2) t (quadDerivR a0 a1 a2 t + (1 - 2 * t) * a1).
Proof.
  apply (derivable_pt_lim_ext
           (fun s => a0 + (2 * a1 - 2 * a0) * s + (a0 - 2 * a1 + a2) * (s * s)
                     + 0 * (s * s * s))).
  - intros z. unfold quadR. ring.
  - replace (quadDerivR a0 a1 a2 t + (1 - 2 * t) * a1)
      with ((2 * a1 - 2 * a0) + 2 * (a0 - 2 * a1 + a2) * t + 3 * 0 * (t * t))
      by (unfold quadDerivR; ring).
    apply derivable_pt_lim_poly3.
Qed.

(** X4.  [cubicBezierDeriv] is the derivative of [cubicBezierPos], and
    [cubicBezierDeriv2] is the derivative of [cubicBezierDeriv], in each
    coordinate. *)
Theorem cubicBezierDeriv_is_derivative (x0 y0 x1 y1 x2 y2 x3 y3 t : R) :
  let p0 := pt x0 y0 in
  let p1 := pt x1 y1 in
  let p2 := pt x2 y2 in
  let p3 := pt x3 y3 in
  derivable_pt_lim (fun s => realOf (X (cubicBezierPos p0 p1 p2 p3 (Fin s)))) t
    (realOf (X (cubicBezierDeriv p0 p1 p2 p3 (Fin t))))
  /\ derivable_pt_lim (fun s => realOf (Y (cubicBezierPos p0 p1 p2 p3 (Fin s)))) t
       (realOf (Y (cubicBezierDeriv p0 p1 p2 p3 (Fin t))))
  /\ derivable_pt_lim (fun s => realOf (X (cubicBezierDeriv p0 p1 p2 p3 (Fin s)))) t
       (realOf (X (cubicBezierDeriv2 p0 p1 p2 p3 (Fin t))))
  /\ derivable_pt_lim (fun s => realOf (Y (cubicBezierDeriv p0 p1 p2 p3 (Fin s)))) t
       (realOf (Y (cubicBezierDeriv2 p0 p1 p2 p3 (Fin t)))).
Proof.
  cbv zeta. repeat split.
  - exact (derivable_pt_lim_cubicR x0 x1 x2 x3 t).
  - exact (derivable_pt_lim_cubicR y0 y1 y2 y3 t).
  - exact (derivable_pt_lim_cubicDerivR x0 x1 x2 x3 t).
  - exact (derivable_pt_lim_cubicDerivR y0 y1 y2 y3 t).
Qed.

(** X5.  [quadraticBezierDeriv] is not the derivative of [quadraticBezierPos]: it
    weighs the control point [p1] by [1 - 2 t] where the derivative has
    [2 - 4 t].  The derivative is what the function returns plus
    [(1 - 2 t) p1], so the two agree only at [t = 1/2] or for a zero
    coordinate of [p1]. *)
Theorem quadraticBezierDeriv_misses_half_of_control (x0 y0 x1 y1 x2 y2 t : R) :
  let p0 := pt x0 y0 in
  let p1 := pt x1 y1 in
  let p2 := pt x2 y2 in
  derivable_pt_lim (fun s => realOf (X (quadraticBezierPos p0 p1 p2 (Fin s)))) t
    (realOf (X (quadraticBezierDeriv p0 p1 p2 (Fin t))) + (1 - 2 * t) * x1)
  /\ derivable_pt_lim (fun s => realOf (Y (quadraticBezierPos p0 p1 p2 (Fin s)))) t
       (realOf (Y (quadraticBezierDeriv p0 p1 p2 (Fin t))) + (1 - 2 * t) * y1)
  /\ forall d : R,
       derivable_pt_lim (fun s => realOf (X (quadraticBezierPos p0 p1 p2 (Fin s)))) t d ->
       (d = realOf (X (quadraticBezierDeriv p0 p1 p2 (Fin t)))
        <-> t = 1 / 2 \/ x1 = 0).
Proof.
  cbv zeta. repeat split.
  - exact (derivable_pt_lim_quadR x0 x1 x2 t).
  - exact (derivable_pt_lim_quadR y0 y1 y2 t).
  - intros E.
    pose proof (uniqueness_limite _ _ _ _ H (derivable_pt_lim_quadR x0 x1 x2 t)) as U.
    rewrite quadraticBezierDeriv_pt in E. unfold pt in E; cbn [X realOf] in E.
    assert (Z : (1 - 2 * t) * x1 = 0) by lra.
    apply Rmult_integral in Z. destruct Z; [left; lra | right; assumption].
  - intros E.
    pose proof (uniqueness_limite _ _ _ _ H (derivable_pt_lim_quadR x0 x1 x2 t)) as U.
    rewrite quadraticBezierDeriv_pt. unfold pt; cbn [X realOf].
    rewrite U. destruct E as [-> | ->]; lra.
Qed.

(** X6.  Whatever the control points, each parameter that
    [findInflectionPointsCubicBezier] reports is NaN or lies in [[0, 1)],
    and two reported parameters come in ascending order. *)
Theorem findInflectionPointsCubicBezier_unit_interval_sorted (p0 p1 p2 p3 : Point) :
  let '(t1, t2) := findInflectionPointsCubicBezier p0 p1 p2 p3 in
  unitOrNaN t1 /\ unitOrNaN t2 /\ ascending t1 t2.
Proof.
  unfold findInflectionPointsCubicBezier. cbv zeta.
  match goal with
  | |- context [solveQuadraticFormula ?a ?b ?c] =>
      pose proof (solveQuadraticFormula_unitOrNaN a b c) as [H1 H2];
      pose proof (solveQuadraticFormula_ascending a b c) as H3;
      destruct (solveQuadraticFormula a b c) as [t1 t2]
  end.
  repeat split; assumption.
Qed.

Lemma Rcbrt_nonneg (a : R) : 0 <= a -> 0 <= Rcbrt a.
Proof.
  intros Ha. unfold Rcbrt.
  destruct (Req_dec_T a 0) as [E | E].
  - rewrite Reqb_true by assumption. lra.
  - rewrite Reqb_false by assumption. rewrite Rltb_false by lra.
    unfold Rpower. left. apply exp_pos.
Qed.

Lemma hypot_pos (a b : R) : ~ (a = 0 /\ b = 0) -> 0 < sqrt (a * a + b * b).
Proof.
  intros H. apply sqrt_lt_R0.
  destruct (Req_dec_T a 0) as [Ea | Ea].
  - assert (b <> 0) by (intros Eb; apply H; split; assumption). nra.
  - nra.
Qed.

Lemma isZeroPoint_pt (a b : R) :
  isZeroPoint (mkPoint (Fin a) (Fin b)) = Reqb a 0 && Reqb b 0.
Proof. reflexivity. Qed.

(** the window of [findInflectionPointRange] past the optional split, on a
    segment with finite control points *)
Lemma inflectionWindow_contains (x0 y0 x1 y1 x2 y2 x3 y3 t fl : R) :
  0 <= t <= 1 -> 0 <= fl ->
  let p0 := pt x0 y0 in
  let p1 := pt x1 y1 in
  let p2 := pt x2 y2 in
  let p3 := pt x3 y3 in
  exists tmin tmax : R,
    (let nr := Sub p1 p0 in
     let ns := Sub p3 p0 in
     let nr := if isZeroPoint nr then Sub p2 p0 else nr in
     if isZeroPoint nr then Ok (Fin 0, Fin 1)
     else
       let s3 := (Abs (X ns * Y nr - Y ns * X nr) / Hypot (X nr) (Y nr))%f64 in
       if (s3 == 0)%f64 then Ok (Fin 0, Fin 1)
       else
         let tf := Cbrt (Fin fl / s3)%f64 in
         Ok (Fin t - tf * (1 - Fin t), Fin t + tf * (1 - Fin t))%f64)
    = Ok (Fin tmin, Fin tmax)
    /\ tmin <= t <= tmax
    /\ (tmin = 0 /\ tmax = 1 \/ t - tmin = tmax - t).
Proof.
  intros Ht Hfl. cbv zeta.
  assert (Hunit : exists tmin tmax : R,
            @Ok (float64 * float64) (Fin 0, Fin 1) = Ok (Fin tmin, Fin tmax)
            /\ tmin <= t <= tmax /\ (tmin = 0 /\ tmax = 1 \/ t - tmin = tmax - t)).
  { exists 0, 1. split; [reflexivity | split; [lra | left; split; reflexivity]]. }
  assert (Htail : forall a b : R, ~ (a = 0 /\ b = 0) ->
            exists tmin tmax : R,
              (let s3 := (Abs (Fin (x3 - x0) * Fin b - Fin (y3 - y0) * Fin a)
                          / Hypot (Fin a) (Fin b))%f64 in
               if (s3 == 0)%f64 then Ok (Fin 0, Fin 1)
               else
                 let tf := Cbrt (Fin fl / s3)%f64 in
                 Ok (Fin t - tf * (1 - Fin t), Fin t + tf * (1 - Fin t))%f64)
              = Ok (Fin tmin, Fin tmax)
              /\ tmin <= t <= tmax /\ (tmin = 0 /\ tmax = 1 \/ t - tmin = tmax - t)).
  { intros a b Hab. pose proof (hypot_pos a b Hab) as Hh. cbv zeta.
    autorewrite with f64. rewrite fdiv_Fin by lra. rewrite feqb_Fin.
    set (s3 := Rabs ((x3 - x0) * b - (y3 - y0) * a) / sqrt (a * a + b * b)).
    assert (Hs3 : 0 <= s3)
      by (unfold s3; apply Rmult_le_pos;
          [apply Rabs_pos | left; now apply Rinv_0_lt_compat]).
    destruct (Req_dec_T s3 0) as [E | E].
    - rewrite Reqb_true by assumption. exact Hunit.
    - rewrite Reqb_false by assumption. rewrite fdiv_Fin by assumption.
      cbn [Cbrt]. autorewrite with f64.
      assert (Hc : 0 <= Rcbrt (fl / s3)).
      { apply Rcbrt_nonneg. apply Rmult_le_pos; [assumption |].
        left. apply Rinv_0_lt_compat. lra. }
      eexists _, _. split; [reflexivity |]. split; [nra | right; lra]. }
  unfold Sub, pt; cbn [X Y]. autorewrite with f64.
  rewrite !isZeroPoint_pt.
  destruct (Req_dec_T (x1 - x0) 0) as [Ex | Ex];
    [destruct (Req_dec_T (y1 - y0) 0) as [Ey | Ey] |].
  - rewrite !(Reqb_true (x1 - x0)), !(Reqb_true (y1 - y0)) by assumption.
    cbn [andb]. cbv iota. cbn [X Y]. rewrite !isZeroPoint_pt.
    destruct (Req_dec_T (x2 - x0) 0) as [Fx | Fx];
      [destruct (Req_dec_T (y2 - y0) 0) as [Fy | Fy] |].
    + rewrite !(Reqb_true (x2 - x0)), !(Reqb_true (y2 - y0)) by assumption.
      exact Hunit.
    + rewrite !(Reqb_false (y2 - y0)) by assumption. rewrite !andb_false_r.
      exact (Htail (x2 - x0) (y2 - y0) ltac:(tauto)).
    + rewrite !(Reqb_false (x2 - x0)) by assumption. cbn [andb].
      exact (Htail (x2 - x0) (y2 - y0) ltac:(tauto)).
  - rewrite !(Reqb_false (y1 - y0)) by assumption. rewrite !andb_false_r.
    cbv iota. cbn [X Y]. rewrite !isZeroPoint_pt.
    rewrite !(Reqb_false (y1 - y0)) by assumption. rewrite !andb_false_r.
    exact (Htail (x1 - x0) (y1 - y0) ltac:(tauto)).
  - rewrite !(Reqb_false (x1 - x0)) by assumption. cbn [andb].
    cbv iota. cbn [X Y]. rewrite !isZeroPoint_pt.
    rewrite !(Reqb_false (x1 - x0)) by assumption. cbn [andb].
    exact (Htail (x1 - x0) (y1 - y0) ltac:(tauto)).
Qed.

(** X7.  For control points with finite coordinates of magnitude at most
    [1e150], a parameter [t] with [0 <= t < 1] and a non-negative flatness,
    [findInflectionPointRange] returns a window that contains [t]: its
    lower end compares at most [t] and its upper end at least [t]. *)
Theorem findInflectionPointRange_contains (p0 p1 p2 p3 : Point) (t fl : R) :
  boundedPoint 1e150 p0 -> boundedPoint 1e150 p1 ->
  boundedPoint 1e150 p2 -> boundedPoint 1e150 p3 ->
  0 <= t < 1 -> 0 <= fl ->
  exists tmin tmax : float64,
    findInflectionPointRange p0 p1 p2 p3 (Fin t) (Fin fl) = Ok (tmin, tmax)
    /\ (tmin <=? Fin t)%f64 = true
    /\ (Fin t <=? tmax)%f64 = true.
Proof.
  intros (x0 & y0 & -> & _) (x1 & y1 & -> & _) (x2 & y2 & -> & _)
         (x3 & y3 & -> & _) Ht Hfl.
  assert (Ht' : 0 <= t <= 1) by lra.
  assert (W : forall a0 b0 a1 b1 a2 b2 a3 b3 : R,
            exists tmin tmax : R,
              (let p0 := pt a0 b0 in
               let p1 := pt a1 b1 in
               let p2 := pt a2 b2 in
               let p3 := pt a3 b3 in
               let nr := Sub p1 p0 in
               let ns := Sub p3 p0 in
               let nr := if isZeroPoint nr then Sub p2 p0 else nr in
               if isZeroPoint nr then Ok (Fin 0, Fin 1)
               else
                 let s3 := (Abs (X ns * Y nr - Y ns * X nr) / Hypot (X nr) (Y nr))%f64 in
                 if (s3 == 0)%f64 then Ok (Fin 0, Fin 1)
                 else
                   let tf := Cbrt (Fin fl / s3)%f64 in
                   Ok (Fin t - tf * (1 - Fin t), Fin t + tf * (1 - Fin t))%f64)
              = Ok (Fin tmin, Fin tmax)
              /\ tmin <= t <= tmax).
  { intros a0 b0 a1 b1 a2 b2 a3 b3.
    destruct (inflectionWindow_contains a0 b0 a1 b1 a2 b2 a3 b3 t fl Ht' Hfl)
      as (tmin & tmax & E & Hin & _).
    exists tmin, tmax. split; assumption. }
  assert (G : forall r : result (float64 * float64),
            (exists tmin tmax : R, r = Ok (Fin tmin, Fin tmax) /\ tmin <= t <= tmax) ->
            exists tmin tmax : float64,
              r = Ok (tmin, tmax)
              /\ (tmin <=? Fin t)%f64 = true /\ (Fin t <=? tmax)%f64 = true).
  { intros r (tmin & tmax & -> & Hin). exists (Fin tmin), (Fin tmax).
    split; [reflexivity |]. split; apply fleb_Fin_le; lra. }
  apply G.
  unfold findInflectionPointRange. cbn [IsNaN].
  rewrite !fltb_Fin, (Rltb_false t 0), (Rltb_false 1 t) by lra. cbn [orb].
  rewrite fneb_Fin.
  destruct (Req_dec_T t 0) as [E | E].
  - rewrite Reqb_true by assumption. cbn [negb]. exact (W _ _ _ _ _ _ _ _).
  - rewrite Reqb_false by assumption. cbn [negb].
    rewrite splitCubicBezier_pt. exact (W _ _ _ _ _ _ _ _).
Qed.

Lemma boundedPoint_pt (B x y : R) :
  Rabs x <= B -> Rabs y <= B -> boundedPoint B (pt x y).
Proof. intros Hx Hy. exists x, y. auto. Qed.

Lemma findInflectionPointRange_contains_witness :
  boundedPoint 1e150 (pt 0 0) /\ boundedPoint 1e150 (pt 1 1)
  /\ boundedPoint 1e150 (pt 2 (-1)) /\ boundedPoint 1e150 (pt 3 0)
  /\ 0 <= 1 / 2 < 1 /\ 0 <= 1 /\
  exists tmin tmax : float64,
    findInflectionPointRange (pt 0 0) (pt 1 1) (pt 2 (-1)) (pt 3 0)
      (Fin (1 / 2)) (Fin 1) = Ok (tmin, tmax)
    /\ (tmin <=? Fin (1 / 2))%f64 = true
    /\ (Fin (1 / 2) <=? tmax)%f64 = true.
Proof.
  assert (B0 : boundedPoint 1e150 (pt 0 0))
    by (apply boundedPoint_pt; rabs; lra).
  assert (B1 : boundedPoint 1e150 (pt 1 1))
    by (apply boundedPoint_pt; rabs; lra).
  assert (B2 : boundedPoint 1e150 (pt 2 (-1)))
    by (apply boundedPoint_pt; rabs; lra).
  assert (B3 : boundedPoint 1e150 (pt 3 0))
    by (apply boundedPoint_pt; rabs; lra).
  assert (Ht : 0 <= 1 / 2 < 1) by lra.
  assert (Hfl : 0 <= 1) by lra.
  split; [exact B0 |]. split; [exact B1 |]. split; [exact B2 |].
  split; [exact B3 |]. split; [exact Ht |]. split; [exact Hfl |].
  exact (findInflectionPointRange_contains _ _ _ _ (1 / 2) 1 B0 B1 B2 B3 Ht Hfl).
Defined.

(** The guard of [addCubicBezierLine] holds on every segment that starts on
    the diagonal at [(c, c)], has its first control point there too, and ends
    on the vertical line [x = c]. *)
Lemma addCubicBezierLineGuard_diagonal (c y : R) (p2 : Point) :
  addCubicBezierLineGuard (pt c c) (pt c c) p2 (pt c y) = true.
Proof.
  unfold addCubicBezierLineGuard, pt; cbn [X Y].
  rewrite !feqb_Fin, !(Reqb_true c c) by reflexivity. reflexivity.
Qed.

Lemma findInflectionPointsCubicBezier_vertical (c y : R) :
  findInflectionPointsCubicBezier (pt c c) (pt c c) (pt c c) (pt c y) = (Fin 0, NaN).
Proof.
  unfold findInflectionPointsCubicBezier, pt; cbn [X Y]; cbv zeta.
  autorewrite with f64. unfold solveQuadraticFormula.
  rewrite !feqb_Fin, !Reqb_true by ring. reflexivity.
Qed.

Lemma findInflectionPointRange_vertical (c y : R) (flatness : float64) :
  findInflectionPointRange (pt c c) (pt c c) (pt c c) (pt c y) (Fin 0) flatness
  = Ok (Fin 0, Fin 1).
Proof.
  unfold findInflectionPointRange; cbn [IsNaN]; feval; cbn [orb negb]; cbv zeta.
  repeat (rewrite isZeroPoint_Sub_self; cbv iota). reflexivity.
Qed.

(** X13.  A straight segment of any length is dropped: with three control points
    at [(c, c)] and the end point at [(c, y)], [addCubicBezierLine] leaves
    the path as it is and [strokeCubicBezier] returns the empty path. *)
Theorem strokeCubicBezier_drops_vertical_segment (c y : R) (d flatness : float64) :
  (forall (p : Path) (p2 : Point) (t : float64),
     addCubicBezierLine p (pt c c) (pt c c) p2 (pt c y) t d = Ok p)
  /\ forall fuel : nat,
       strokeCubicBezier fuel (pt c c) (pt c c) (pt c c) (pt c y) d flatness = Ok [].
Proof.
  split.
  - intros p p2 t. unfold addCubicBezierLine.
    now rewrite addCubicBezierLineGuard_diagonal.
  - intros fuel. unfold strokeCubicBezier; cbv zeta.
    rewrite findInflectionPointsCubicBezier_vertical. cbn [IsNaN andb].
    rewrite findInflectionPointRange_vertical, findInflectionPointRange_NaN.
    cbn [bind]. feval. cbn [IsNaN andb].
    unfold addCubicBezierLine. now rewrite addCubicBezierLineGuard_diagonal.
Qed.

(** X9.  When the first or the second control point coincides with the start
    point, the flattener emits a single chord, wherever the other control
    points lie and whatever the offset and the tolerance are (coordinates of
    the first three control points finite and at most [1e300] in
    magnitude). *)
Theorem flattenSmoothCubicBezier_coincident_start (fuel : nat) (p : Path)
    (p0 p1 p2 p3 : Point) (d flatness : float64) :
  boundedPoint 1e300 p0 -> boundedPoint 1e300 p1 -> boundedPoint 1e300 p2 ->
  p1 = p0 \/ p2 = p0 ->
  flattenSmoothCubicBezier (S fuel) p p0 p1 p2 p3 d flatness
  = addCubicBezierLine p p0 p1 p2 p3 (Fin 1) d.
Proof.
  intros (x0 & y0 & -> & _) (x1 & y1 & -> & _) (x2 & y2 & -> & _) H.
  apply flattenSmoothCubicBezier_singleChord. unfold singleChord.
  rewrite flattenSmoothStep_zero; [reflexivity |].
  replace (s2nomR x0 y0 x1 y1 x2 y2) with 0; [ring |].
  unfold s2nomR, pt in *.
  destruct H as [[= -> ->] | [= -> ->]]; ring.
Qed.

Lemma flattenSmoothCubicBezier_coincident_start_witness :
  boundedPoint 1e300 (pt 1 2) /\ boundedPoint 1e300 (pt 1 2)
  /\ boundedPoint 1e300 (pt 4 3)
  /\ (pt 1 2 = pt 1 2 \/ pt 4 3 = pt 1 2)
  /\ flattenSmoothCubicBezier 1 [] (pt 1 2) (pt 1 2) (pt 4 3) (pt 3 5) (Fin 0) (Fin 0.01)
     = addCubicBezierLine [] (pt 1 2) (pt 1 2) (pt 4 3) (pt 3 5) (Fin 1) (Fin 0).
Proof.
  assert (B0 : boundedPoint 1e300 (pt 1 2))
    by (apply boundedPoint_pt; rabs; lra).
  assert (B2 : boundedPoint 1e300 (pt 4 3))
    by (apply boundedPoint_pt; rabs; lra).
  assert (H : pt 1 2 = pt 1 2 \/ pt 4 3 = pt 1 2) by (left; reflexivity).
  split; [exact B0 |]. split; [exact B0 |]. split; [exact B2 |]. split; [exact H |].
  exact (flattenSmoothCubicBezier_coincident_start 0 [] _ _ _ (pt 3 5) (Fin 0) (Fin 0.01)
           B0 B0 B2 H).
Defined.

(** *** Only lines are emitted *)

Lemma extendsByLines_refl (p : Path) : extendsByLines p p.
Proof. exists []. split; [now rewrite app_nil_r | reflexivity]. Qed.

Lemma extendsByLines_trans (p q r : Path) :
  extendsByLines p q -> extendsByLines q r -> extendsByLines p r.
Proof.
  intros (l1 & -> & H1) (l2 & -> & H2). exists (l1 ++ l2). split.
  - now rewrite app_assoc.
  - rewrite forallb_app, H1, H2. reflexivity.
Qed.

Lemma extendsByLines_LineTo (p : Path) (x y : float64) :
  extendsByLines p (LineTo p x y).
Proof. exists [LineToCmd x y]. split; reflexivity. Qed.

Lemma addCubicBezierLine_extends (p : Path) (p0 p1 p2 p3 : Point) (t d : float64)
    (q : Path) :
  addCubicBezierLine p p0 p1 p2 p3 t d = Ok q -> extendsByLines p q.
Proof.
  unfold addCubicBezierLine.
  destruct (addCubicBezierLineGuard p0 p1 p2 p3).
  - intros [= <-]. apply extendsByLines_refl.
  - match goal with |- bind ?m _ = _ -> _ => destruct m as [pos | |] end;
      cbn [bind]; try discriminate.
    intros [= <-]. apply extendsByLines_LineTo.
Qed.

Lemma flattenSmoothLoop_extends (d flatness : float64) :
  forall (fuel : nat) (p : Path) (p0 p1 p2 p3 : Point) (t : float64)
         (q : Path) (s : Point * Point * Point * Point),
    flattenSmoothLoop fuel p p0 p1 p2 p3 d flatness t = Ok (q, s) ->
    extendsByLines p q.
Proof.
  induction fuel as [| fuel IH]; intros p p0 p1 p2 p3 t q s; [discriminate |].
  cbn [flattenSmoothLoop].
  destruct (t <? 1)%f64; [| intros [= <- _]; apply extendsByLines_refl].
  destruct (flattenSmoothStep p0 p1 p2 p3 d flatness) as [t' |];
    [| intros [= <- _]; apply extendsByLines_refl].
  destruct (t' >=? 1)%f64; [intros [= <- _]; apply extendsByLines_refl |].
  destruct (splitCubicBezier p0 p1 p2 p3 t') as [[[[[[[a0 a1] a2] a3] q0] q1] q2] q3].
  destruct (addCubicBezierLine p q0 q1 q2 q3 (Fin 0) d) as [p' | |] eqn:E;
    cbn [bind]; try discriminate.
  intros H. apply (extendsByLines_trans p p' q).
  - exact (addCubicBezierLine_extends _ _ _ _ _ _ _ _ E).
  - exact (IH _ _ _ _ _ _ _ _ H).
Qed.

Lemma flattenSmoothCubicBezier_extends (fuel : nat) (p : Path)
    (p0 p1 p2 p3 : Point) (d flatness : float64) (q : Path) :
  flattenSmoothCubicBezier fuel p p0 p1 p2 p3 d flatness = Ok q ->
  extendsByLines p q.
Proof.
  unfold flattenSmoothCubicBezier.
  destruct (flattenSmoothLoop fuel p p0 p1 p2 p3 d flatness (Fin 0))
    as [[p' [[[q0 q1] q2] q3]] | |] eqn:E; cbn [bind]; try discriminate.
  intros H. apply (extendsByLines_trans p p' q).
  - exact (flattenSmoothLoop_extends _ _ _ _ _ _ _ _ _ _ _ E).
  - exact (addCubicBezierLine_extends _ _ _ _ _ _ _ _ H).
Qed.

(** X10.  [flattenSmoothCubicBezier] only appends to the path it is given, and
    what it appends are line commands. *)
Theorem flattenSmoothCubicBezier_appends_lines (fuel : nat) (p : Path)
    (p0 p1 p2 p3 : Point) (d flatness : float64) (q : Path) :
  flattenSmoothCubicBezier fuel p p0 p1 p2 p3 d flatness = Ok q ->
  exists ls : Path, q = p ++ ls /\ forallb isLineTo ls = true.
Proof. exact (flattenSmoothCubicBezier_extends fuel p p0 p1 p2 p3 d flatness q). Qed.

Lemma extendsResult_bind (p : Path) (m : result Path) (k : Path -> result Path) :
  extendsResult p m ->
  (forall a, extendsByLines p a -> extendsResult p (k a)) ->
  extendsResult p (bind m k).
Proof. destruct m; cbn [bind extendsResult]; auto. Qed.

Lemma extendsResult_add (p a : Path) (p0 p1 p2 p3 : Point) (t d : float64) :
  extendsByLines p a -> extendsResult p (addCubicBezierLine a p0 p1 p2 p3 t d).
Proof.
  intros H. destruct (addCubicBezierLine a p0 p1 p2 p3 t d) as [q | |] eqn:E;
    cbn [extendsResult]; auto.
  apply (extendsByLines_trans p a q H).
  exact (addCubicBezierLine_extends _ _ _ _ _ _ _ _ E).
Qed.

Lemma extendsResult_flatten (fuel : nat) (p a : Path) (p0 p1 p2 p3 : Point)
    (d flatness : float64) :
  extendsByLines p a ->
  extendsResult p (flattenSmoothCubicBezier fuel a p0 p1 p2 p3 d flatness).
Proof.
  intros H.
  destruct (flattenSmoothCubicBezier fuel a p0 p1 p2 p3 d flatness) as [q | |] eqn:E;
    cbn [extendsResult]; auto.
  apply (extendsByLines_trans p a q H).
  exact (flattenSmoothCubicBezier_extends _ _ _ _ _ _ _ _ _ E).
Qed.

Lemma strokeCubicBezier_extends (fuel : nat) (p0 p1 p2 p3 : Point)
    (d flatness : float64) :
  extendsResult [] (strokeCubicBezier fuel p0 p1 p2 p3 d flatness).
Proof.
  pose proof (extendsByLines_refl []) as H0.
  unfold strokeCubicBezier. cbv zeta.
  destruct (findInflectionPointsCubicBezier p0 p1 p2 p3) as [t1 t2].
  destruct (IsNaN t1 && IsNaN t2); [now apply extendsResult_flatten |].
  destruct (findInflectionPointRange p0 p1 p2 p3 t1 flatness) as [[t1min t1max] | |];
    cbn [bind]; try exact I.
  destruct (findInflectionPointRange p0 p1 p2 p3 t2 flatness) as [[t2min t2max] | |];
    cbn [bind]; try exact I.
  repeat first
    [ exact I
    | assumption
    | apply extendsResult_flatten
    | apply extendsResult_add
    | apply extendsResult_bind; [| intros ? ?]
    | match goal with
      | |- context [match splitCubicBezier ?a ?b ?c ?d ?e with pair _ _ => _ end] =>
          destruct (splitCubicBezier a b c d e) as [[[[[[[? ?] ?] ?] ?] ?] ?] ?]
      | |- extendsResult _ (if ?c then _ else _) => destruct c
      | |- extendsResult _ (Ok _) => cbn [extendsResult]
      end ].
Qed.

(** X11.  Whatever [strokeCubicBezier] returns consists of line commands only. *)
Theorem strokeCubicBezier_lines_only (fuel : nat) (p0 p1 p2 p3 : Point)
    (d flatness : float64) (path : Path) :
  strokeCubicBezier fuel p0 p1 p2 p3 d flatness = Ok path ->
  forallb isLineTo path = true.
Proof.
  intros H. pose proof (strokeCubicBezier_extends fuel p0 p1 p2 p3 d flatness) as E.
  rewrite H in E. destruct E as (ls & -> & Hls). exact Hls.
Qed.

Lemma strokeCubicBezier_lines_only_witness :
  strokeCubicBezier 3 refinementP0 refinementP1 refinementP2 refinementP3
    (Fin 0) (Fin (3 / 25))
  = Ok [LineToCmd (Fin (-238 / 125)) (Fin (-4 / 25));
        LineToCmd (Fin (76 / 125)) (Fin (16 / 25));
        LineToCmd (Fin 4) (Fin 2)]
  /\ forallb isLineTo
       [LineToCmd (Fin (-238 / 125)) (Fin (-4 / 25));
        LineToCmd (Fin (76 / 125)) (Fin (16 / 25));
        LineToCmd (Fin 4) (Fin 2)] = true.
Proof.
  split; [exact (refinement_segment_loose 0) |].
  exact (strokeCubicBezier_lines_only 3 refinementP0 refinementP1 refinementP2
           refinementP3 (Fin 0) (Fin (3 / 25)) _ (refinement_segment_loose 0)).
Defined.

Lemma flattenSmoothCubicBezier_appends_lines_witness :
  flattenSmoothCubicBezier 1 [] (pt 0 0) (pt 1 0) (pt 2 0) (pt 3 5) (Fin 0) (Fin 1)
  = Ok [LineToCmd (Fin 3) (Fin 5)]
  /\ exists ls : Path,
       [LineToCmd (Fin 3) (Fin 5)] = [] ++ ls /\ forallb isLineTo ls = true.
Proof.
  assert (E : flattenSmoothCubicBezier 1 [] (pt 0 0) (pt 1 0) (pt 2 0) (pt 3 5)
                (Fin 0) (Fin 1) = Ok [LineToCmd (Fin 3) (Fin 5)]).
  { rewrite flattenSmoothCubicBezier_singleChord.
    - rewrite addCubicBezierLine_end_pt by lra. reflexivity.
    - unfold singleChord. rewrite flattenSmoothStep_zero; [reflexivity |].
      unfold s2nomR. lra. }
  split; [exact E |].
  exact (flattenSmoothCubicBezier_appends_lines 1 [] (pt 0 0) (pt 1 0) (pt 2 0)
           (pt 3 5) (Fin 0) (Fin 1) _ E).
Defined.

(** *** No panics in the stroker *)

Lemma noPanic_bind {A B : Type} (m : result A) (k : A -> result B) :
  noPanic m -> (forall a, noPanic (k a)) -> noPanic (bind m k).
Proof. destruct m; simpl; auto. Qed.

Lemma findInflectionPointRange_noPanic (p0 p1 p2 p3 : Point) (t flatness : float64) :
  unitOrNaN t -> noPanic (findInflectionPointRange p0 p1 p2 p3 t flatness).
Proof.
  intros [-> | (r & -> & Hr)]; [exact I |].
  unfold findInflectionPointRange. cbn [IsNaN].
  rewrite !fltb_Fin, (Rltb_false r 0), (Rltb_false 1 r) by lra. cbn [orb].
  repeat match goal with
  | |- context [if ?c then _ else _] => destruct c
  | |- context [match ?c with pair _ _ => _ end] => destruct c
  end; exact I.
Qed.

Lemma cubicBezierNormal_noPanic (p0 p1 p2 p3 : Point) (t d : float64) :
  t = Fin 0 \/ t = Fin 1 -> noPanic (cubicBezierNormal p0 p1 p2 p3 t d).
Proof.
  intros [-> | ->]; unfold cubicBezierNormal;
    rewrite ?feqb_Fin, ?(Reqb_true 0 0), ?(Reqb_false 1 0), ?(Reqb_true 1 1) by lra;
    repeat match goal with
    | |- context [if ?c then _ else _] => destruct c
    end; exact I.
Qed.

Lemma addCubicBezierLine_noPanic (p : Path) (p0 p1 p2 p3 : Point) (t d : float64) :
  t = Fin 0 \/ t = Fin 1 -> noPanic (addCubicBezierLine p p0 p1 p2 p3 t d).
Proof.
  intros Ht. pose proof (cubicBezierNormal_noPanic p0 p1 p2 p3 t d Ht) as Hn.
  unfold addCubicBezierLine.
  destruct (addCubicBezierLineGuard p0 p1 p2 p3); [exact I |].
  apply noPanic_bind; [| intros; exact I].
  destruct Ht as [-> | ->];
    rewrite ?feqb_Fin, ?(Reqb_true 0 0), ?(Reqb_false 1 0), ?(Reqb_true 1 1) by lra;
    destruct (d != 0)%f64; try exact I;
    (apply noPanic_bind; [exact Hn | intros; exact I]).
Qed.

Lemma flattenSmoothLoop_noPanic (d flatness : float64) :
  forall (fuel : nat) (p : Path) (p0 p1 p2 p3 : Point) (t : float64),
    noPanic (flattenSmoothLoop fuel p p0 p1 p2 p3 d flatness t).
Proof.
  induction fuel as [| fuel IH]; intros p p0 p1 p2 p3 t; [exact I |].
  cbn [flattenSmoothLoop].
  destruct (t <? 1)%f64; [| exact I].
  destruct (flattenSmoothStep p0 p1 p2 p3 d flatness) as [t' |]; [| exact I].
  destruct (t' >=? 1)%f64; [exact I |].
  destruct (splitCubicBezier p0 p1 p2 p3 t') as [[[[[[[a0 a1] a2] a3] q0] q1] q2] q3].
  apply noPanic_bind.
  - apply addCubicBezierLine_noPanic. now left.
  - intros a. apply IH.
Qed.

Lemma flattenSmoothCubicBezier_noPanic (fuel : nat) (p : Path)
    (p0 p1 p2 p3 : Point) (d flatness : float64) :
  noPanic (flattenSmoothCubicBezier fuel p p0 p1 p2 p3 d flatness).
Proof.
  unfold flattenSmoothCubicBezier. apply noPanic_bind.
  - apply flattenSmoothLoop_noPanic.
  - intros [p' [[[q0 q1] q2] q3]]. apply addCubicBezierLine_noPanic. now right.
Qed.

(** X12.  [strokeCubicBezier] never panics: the parameters handed to
    [findInflectionPointRange] are NaN or lie in [[0, 1)], and lines are
    only added at [t = 0] and [t = 1]. *)
Theorem strokeCubicBezier_never_panics (fuel : nat) (p0 p1 p2 p3 : Point)
    (d flatness : float64) (msg : string) :
  strokeCubicBezier fuel p0 p1 p2 p3 d flatness <> Panic msg.
Proof.
  assert (H : noPanic (strokeCubicBezier fuel p0 p1 p2 p3 d flatness));
    [| intros E; rewrite E in H; exact H].
  assert (HL : forall p q0 q1 q2 q3 t, t = Fin 0 \/ t = Fin 1 ->
                 noPanic (addCubicBezierLine p q0 q1 q2 q3 t d))
    by (intros; now apply addCubicBezierLine_noPanic).
  assert (HF : forall p q0 q1 q2 q3,
                 noPanic (flattenSmoothCubicBezier fuel p q0 q1 q2 q3 d flatness))
    by (intros; apply flattenSmoothCubicBezier_noPanic).
  unfold strokeCubicBezier, findInflectionPointsCubicBezier. cbv zeta.
  match goal with
  | |- context [solveQuadraticFormula ?a ?b ?c] =>
      pose proof (solveQuadraticFormula_unitOrNaN a b c) as [H1 H2];
      destruct (solveQuadraticFormula a b c) as [t1 t2]
  end.
  cbn [fst snd] in H1, H2.
  destruct (IsNaN t1 && IsNaN t2); [apply HF |].
  apply noPanic_bind; [now apply findInflectionPointRange_noPanic |].
  intros [t1min t1max].
  apply noPanic_bind; [now apply findInflectionPointRange_noPanic |].
  intros [t2min t2max].
  repeat first
    [ exact I
    | apply HF
    | apply HL; (now left) || (now right)
    | apply noPanic_bind; [| intros ?]
    | match goal with
      | |- context [match splitCubicBezier ?a ?b ?c ?d ?e with pair _ _ => _ end] =>
          destruct (splitCubicBezier a b c d e) as [[[[[[[? ?] ?] ?] ?] ?] ?] ?]
      | |- noPanic (if ?c then _ else _) => destruct c
      end ].
Qed.

(** ** Further properties: elliptical arcs *)

Lemma derivable_pt_lim_trig (c a b t : R) :
  derivable_pt_lim (fun s => c + a * cos s + b * sin s) t (- a * sin t + b * cos t).
Proof.
  assert (H : derivable_pt_lim
                (fct_cte c + mult_real_fct a cos + mult_real_fct b sin)%F t
                (0 + a * - sin t + b * cos t)).
  { repeat first
      [ apply derivable_pt_lim_plus | apply derivable_pt_lim_scal
      | apply derivable_pt_lim_cos | apply derivable_pt_lim_sin
      | apply derivable_pt_lim_const ]. }
  replace (- a * sin t + b * cos t) with (0 + a * - sin t + b * cos t) by ring.
  apply (derivable_pt_lim_ext _ _ _ _ (fun z => eq_refl) H).
Qed.

(** X14.  [ellipseDeriv] with [sweep] set is the derivative of [ellipsePos] in the
    angle, and [ellipseDeriv2] is the derivative of that, in each
    coordinate. *)
Theorem ellipseDeriv_is_derivative (rx ry phi cx cy t : R) :
  let pos := fun s : R => ellipsePos (Fin rx) (Fin ry) (Fin phi) (Fin cx) (Fin cy) (Fin s) in
  let d1 := fun s : R => ellipseDeriv (Fin rx) (Fin ry) (Fin phi) true (Fin s) in
  let d2 := fun s : R => ellipseDeriv2 (Fin rx) (Fin ry) (Fin phi) true (Fin s) in
  derivable_pt_lim (fun s => realOf (X (pos s))) t (realOf (X (d1 t)))
  /\ derivable_pt_lim (fun s => realOf (Y (pos s))) t (realOf (Y (d1 t)))
  /\ derivable_pt_lim (fun s => realOf (X (d1 s))) t (realOf (X (d2 t)))
  /\ derivable_pt_lim (fun s => realOf (Y (d1 s))) t (realOf (Y (d2 t))).
Proof.
  cbv zeta. unfold ellipsePos, ellipseDeriv, ellipseDeriv2; cbn [Sin Cos negb X Y].
  autorewrite with f64. cbn [realOf X Y].
  repeat split.
  - apply (derivable_pt_lim_ext
             (fun s => cx + (rx * cos phi) * cos s + (- ry * sin phi) * sin s)).
    + intros z. cbv beta. autorewrite with f64. cbn [realOf]. ring.
    + replace (- rx * sin t * cos phi - ry * cos t * sin phi)
        with (- (rx * cos phi) * sin t + (- ry * sin phi) * cos t) by ring.
      apply derivable_pt_lim_trig.
  - apply (derivable_pt_lim_ext
             (fun s => cy + (rx * sin phi) * cos s + (ry * cos phi) * sin s)).
    + intros z. cbv beta. autorewrite with f64. cbn [realOf]. ring.
    + replace (- rx * sin t * sin phi + ry * cos t * cos phi)
        with (- (rx * sin phi) * sin t + (ry * cos phi) * cos t) by ring.
      apply derivable_pt_lim_trig.
  - apply (derivable_pt_lim_ext
             (fun s => 0 + (- ry * sin phi) * cos s + (- rx * cos phi) * sin s)).
    + intros z. cbv beta. autorewrite with f64. cbn [realOf]. ring.
    + replace (- rx * cos t * cos phi + ry * sin t * sin phi)
        with (- (- ry * sin phi) * sin t + (- rx * cos phi) * cos t) by ring.
      apply derivable_pt_lim_trig.
  - apply (derivable_pt_lim_ext
             (fun s => 0 + (ry * cos phi) * cos s + (- rx * sin phi) * sin s)).
    + intros z. cbv beta. autorewrite with f64. cbn [realOf]. ring.
    + replace (- rx * cos t * sin phi - ry * sin t * cos phi)
        with (- (ry * cos phi) * sin t + (- rx * sin phi) * cos t) by ring.
      apply derivable_pt_lim_trig.
Qed.

Lemma angleNorm_range (x : float64) (r : R) :
  angleNorm x = Fin r -> 0 <= r < 2 * PI.
Proof.
  pose proof PI_RGT_0 as Hpi.
  destruct x as [| | a |]; try discriminate.
  unfold angleNorm. intros [= <-].
  pose proof (Zfloor_bound (a / (2 * PI))) as [H1 H2].
  assert (E : a = a / (2 * PI) * (2 * PI)) by (field; lra).
  set (q := a / (2 * PI)) in *. set (k := IZR (Zfloor q)) in *.
  rewrite E. nra.
Qed.

(** the sweep adjustment of [delta] in [ellipseToCenter] gives it the sign
    of the sweep direction *)
Lemma sweep_delta_direction (sweep flip : bool) (da : float64) :
  (da = NaN \/ exists r : R, da = Fin r /\ 0 <= r <= PI) ->
  let delta := if flip then (- da)%f64 else da in
  let delta :=
    if negb sweep && (delta >? 0)%f64 then (delta - 2 * Pi)%f64
    else if sweep && (delta <? 0)%f64 then (delta + 2 * Pi)%f64
    else delta in
  delta = NaN \/
  exists r : R, delta = Fin r
    /\ if sweep then 0 <= r < 2 * PI else - (2 * PI) < r <= 0.
Proof.
  intros [-> | (r & -> & Hr)]; cbv zeta.
  - left. destruct flip, sweep; reflexivity.
  - right. pose proof PI_RGT_0 as Hpi. unfold Pi.
    destruct flip, sweep; cbn [negb andb]; feval.
    + destruct (Rlt_dec (- r) 0); feval; eexists; (split; [reflexivity |]); lra.
    + destruct (Rlt_dec 0 (- r)); feval; eexists; (split; [reflexivity |]); lra.
    + destruct (Rlt_dec r 0); feval; eexists; (split; [reflexivity |]); lra.
    + destruct (Rlt_dec 0 r); feval; eexists; (split; [reflexivity |]); lra.
Qed.

(** X18.  When the center form has finite angles, the start angle lies in
    [[0, 2 pi)] and the end angle is reached from it in the direction of
    [sweep]: by less than a full turn forward when [sweep] is set, backward
    when it is not. *)
Theorem ellipseToCenter_direction (x1 y1 rx ry phi : float64) (large sweep : bool)
    (x2 y2 cx cy : float64) (t1 t2 : R) :
  ellipseToCenter x1 y1 rx ry phi large sweep x2 y2 = (cx, cy, Fin t1, Fin t2) ->
  0 <= t1 < 2 * PI
  /\ if sweep then 0 <= t2 - t1 < 2 * PI else - (2 * PI) < t2 - t1 <= 0.
Proof.
  pose proof PI_RGT_0 as Hpi.
  cbv beta delta [ellipseToCenter]. repeat name_let.
  match goal with
  | |- context [match (if ?c then _ else _) with pair _ _ => _ end] => case c
  end.
  all: repeat name_let.
  all: case (_ && _);
    [ intros [= _ _ <- <-]; rewrite Rminus_diag; destruct sweep; lra |].
  all: intros [= _ _ Hth Hsum]; rewrite Hth in Hsum.
  all: split; [exact (angleNorm_range _ _ Hth) |].
  all: pose proof (sweep_delta_direction sweep (ux * vy - uy * vx <? 0)%f64 _
                     (Acos_range deltaAcos0)) as Hd;
    cbv zeta in Hd; fold delta in Hd; fold delta0 in Hd; fold delta1 in Hd.
  all: destruct Hd as [E | (r & E & Hr)]; rewrite E in Hsum;
    [ discriminate
    | injection Hsum as <-; replace (t1 + r - t1) with r by ring; exact Hr ].
Qed.

Lemma ellipseToCenter_direction_witness :
  ellipseToCenter (Fin 1) (Fin 0) (Fin 1) (Fin 1) (Fin 0) false true (Fin (-1)) (Fin 0)
  = (Fin 0, Fin 0, Fin 0, Fin PI)
  /\ 0 <= 0 < 2 * PI
  /\ 0 <= PI - 0 < 2 * PI.
Proof.
  split; [exact halfCircle_center |].
  exact (ellipseToCenter_direction _ _ _ _ _ _ _ _ _ _ _ _ _ halfCircle_center).
Defined.

Lemma ellipseToBeziersLoop_spec (rx ry phi cx cy theta1 theta2 : float64) :
  forall (todo : nat) (i : Z) (p : Path),
    ellipseToBeziersLoop todo i p rx ry phi cx cy theta1 theta2
    = p ++ map (fun k => arcQuad rx ry phi cx cy theta1 theta2 (i + Z.of_nat k))
             (seq 0 todo).
Proof.
  induction todo as [| todo IH]; intros i p.
  - simpl. now rewrite app_nil_r.
  - cbn [ellipseToBeziersLoop]. cbv zeta. rewrite IH. unfold QuadTo.
    rewrite <- app_assoc. f_equal.
    cbn [seq map app]. rewrite <- seq_shift, map_map.
    f_equal.
    + replace (i + Z.of_nat 0)%Z with i by (cbn [Z.of_nat]; lia). reflexivity.
    + apply map_ext. intros k. f_equal. lia.
Qed.

(** X19.  [ellipseToBeziers] emits sixteen commands, all of them quadratic
    Beziers, whatever the arc is. *)
Theorem ellipseToBeziers_sixteen_quads (start : Point) (rx ry phi : float64)
    (largeArc sweep : bool) (end_ : Point) :
  List.length (ellipseToBeziers start rx ry phi largeArc sweep end_) = 16%nat
  /\ forallb isQuadTo (ellipseToBeziers start rx ry phi largeArc sweep end_) = true.
Proof.
  unfold ellipseToBeziers.
  destruct (ellipseToCenter _ _ _ _ _ _ _ _ _) as [[[cx cy] theta1] theta2].
  rewrite ellipseToBeziersLoop_spec. cbn [app]. split; reflexivity.
Qed.

(** X21.  With coinciding end points the center form puts the centre at the
    start point and both angles at zero, so all sixteen commands are the
    same: each ends at the arc point [e] at angle zero around the start
    point, with the control point [2 e - e / 2 - e / 2] that the code
    computes from it. *)
Theorem ellipseToBeziers_coincident (x y : R) (rx ry phi : float64)
    (largeArc sweep : bool) :
  let e := ellipsePos rx ry phi (Fin x) (Fin y) (Fin 0) in
  let c := Sub (Sub (Mul e 2) (Mul e 0.5)) (Mul e 0.5) in
  ellipseToBeziers (pt x y) rx ry phi largeArc sweep (pt x y)
  = repeat (QuadToCmd (X c) (Y c) (X e) (Y e)) 16.
Proof.
  cbv zeta. unfold ellipseToBeziers.
  assert (Hc : ellipseToCenter (X (pt x y)) (Y (pt x y)) rx ry phi
                 largeArc sweep (X (pt x y)) (Y (pt x y))
               = (Fin x, Fin y, Fin 0, Fin 0)).
  { cbv beta delta [ellipseToCenter]. unfold pt; cbn [X Y].
    rewrite !feqb_Fin, !Reqb_true by reflexivity. reflexivity. }
  rewrite Hc. rewrite ellipseToBeziersLoop_spec. cbn [app].
  assert (A : forall s : R, (Fin 0 + (Fin 0 - Fin 0) * Fin s)%f64 = Fin 0)
    by (intros s; autorewrite with f64; f_equal; lra).
  assert (M : forall s : R, (Fin 0 + (Fin 0 - Fin 0) * Fin s / 2)%f64 = Fin 0)
    by (intros s; autorewrite with f64; rewrite fdiv_Fin by lra;
        autorewrite with f64; f_equal; lra).
  assert (E : forall k : nat,
            arcQuad rx ry phi (Fin x) (Fin y) (Fin 0) (Fin 0) (0 + Z.of_nat k)
            = let e := ellipsePos rx ry phi (Fin x) (Fin y) (Fin 0) in
              let c := Sub (Sub (Mul e 2) (Mul e 0.5)) (Mul e 0.5) in
              QuadToCmd (X c) (Y c) (X e) (Y e)).
  { intros k. unfold arcQuad, arcControl, arcStart, arcMid, arcEnd, float64_of_int.
    cbv zeta. rewrite !(fdiv_Fin _ 16) by lra. rewrite fadd_Fin.
    rewrite !A, M. reflexivity. }
  rewrite (map_ext _ _ E). reflexivity.
Qed.

(** ** Further properties: quadrature and bisection *)

Lemma fadd_comm (x y : float64) : (x + y)%f64 = (y + x)%f64.
Proof. destruct x, y; try reflexivity. simpl. f_equal. ring. Qed.

Lemma fneg_inf_of (s : bool) : fneg (inf_of s) = inf_of (negb s).
Proof. now destruct s. Qed.

Lemma fmul_neg_Fin (c : R) (s : float64) :
  (Fin (- c) * s)%f64 = (- (Fin c * s))%f64.
Proof.
  destruct s as [| | r |]; cbn [fmul fneg]; try reflexivity.
  - destruct (Req_dec_T c 0) as [E | E].
    + rewrite (Reqb_true (- c) 0), (Reqb_true c 0) by lra. reflexivity.
    + rewrite (Reqb_false (- c) 0), (Reqb_false c 0) by lra.
      rewrite fneg_inf_of. f_equal.
      destruct (Rlt_dec c 0).
      * rewrite (Rltb_true c 0), (Rltb_false (- c) 0) by lra. reflexivity.
      * rewrite (Rltb_false c 0), (Rltb_true (- c) 0) by lra. reflexivity.
  - f_equal. ring.
  - destruct (Req_dec_T c 0) as [E | E].
    + rewrite (Reqb_true (- c) 0), (Reqb_true c 0) by lra. reflexivity.
    + rewrite (Reqb_false (- c) 0), (Reqb_false c 0) by lra.
      rewrite fneg_inf_of. f_equal.
      destruct (Rlt_dec c 0).
      * rewrite (Rltb_true c 0), (Rltb_false (- c) 0) by lra. reflexivity.
      * rewrite (Rltb_false c 0), (Rltb_true (- c) 0) by lra. reflexivity.
Qed.

(** bring the node [w * ((a - b) / 2) + (b + a) / 2] of the swapped rule to
    the node [w' * ((b - a) / 2) + (a + b) / 2] of the rule itself, where
    [w'] is the opposite of [w] *)
Ltac swap_node a b w w' :=
  replace (w * ((a - b) / 2) + (b + a) / 2)
    with (w' * ((b - a) / 2) + (a + b) / 2) by lra.

Ltac swap_nodes a b w w' := swap_node a b w w'; swap_node a b w' w.

(** X23.  Swapping the bounds negates the result of each of the three rules, for
    every integrand. *)
Theorem gaussLegendre_swap_bounds (f : float64 -> float64) (a b : R) :
  gaussLegendre3 f (Fin b) (Fin a) = (- gaussLegendre3 f (Fin a) (Fin b))%f64
  /\ gaussLegendre5 f (Fin b) (Fin a) = (- gaussLegendre5 f (Fin a) (Fin b))%f64
  /\ gaussLegendre7 f (Fin b) (Fin a) = (- gaussLegendre7 f (Fin a) (Fin b))%f64.
Proof.
  assert (Ec : (a - b) / 2 = - ((b - a) / 2)) by lra.
  assert (Ed : (b + a) / 2 = (a + b) / 2) by lra.
  repeat split.
  - unfold gaussLegendre3; cbv zeta. feval.
    swap_nodes a b (-0.774596669) 0.774596669.
    rewrite Ec, Ed, fmul_neg_Fin.
    rewrite (fadd_comm (f (Fin (0.774596669 * ((b - a) / 2) + (a + b) / 2)))).
    reflexivity.
  - unfold gaussLegendre5; cbv zeta. feval.
    swap_nodes a b (-0.90618) 0.90618. swap_nodes a b (-0.538469) 0.538469.
    rewrite Ec, Ed, fmul_neg_Fin.
    rewrite (fadd_comm (f (Fin (0.90618 * ((b - a) / 2) + (a + b) / 2)))).
    rewrite (fadd_comm (f (Fin (0.538469 * ((b - a) / 2) + (a + b) / 2)))).
    reflexivity.
  - unfold gaussLegendre7; cbv zeta. feval.
    swap_nodes a b (-0.949108) 0.949108. swap_nodes a b (-0.741531) 0.741531.
    swap_nodes a b (-0.405845) 0.405845.
    rewrite Ec, Ed, fmul_neg_Fin.
    rewrite (fadd_comm (f (Fin (0.949108 * ((b - a) / 2) + (a + b) / 2)))).
    rewrite (fadd_comm (f (Fin (0.741531 * ((b - a) / 2) + (a + b) / 2)))).
    rewrite (fadd_comm (f (Fin (0.405845 * ((b - a) / 2) + (a + b) / 2)))).
    reflexivity.
Qed.

(** With a horizontal tolerance of a thousandth of the first bracket, the
    loop leaves at the tenth pass at the latest: the bracket is halved at
    each pass. *)
Lemma bisectionLoop_halving (f : float64 -> float64) (y tolY : float64) (w0 : R) :
  0 < w0 ->
  forall (fuel n : nat) (xmin xmax : R),
    xmax - xmin = w0 / 2 ^ n -> (n <= 9)%nat -> (9 < fuel + n)%nat ->
    exists (x : R) (m : nat),
      bisectionLoop fuel f y (Fin (w0 * 0.001)) tolY n (Fin xmin) (Fin xmax)
      = Ok (Fin x, m)
      /\ (m <= 9)%nat /\ xmin < x < xmax.
Proof.
  intros Hw0. induction fuel as [| fuel IH]; intros n xmin xmax Hw Hn Hfuel.
  - simpl in Hfuel. lia.
  - assert (Hpow : 0 < 2 ^ n) by (apply pow_lt; lra).
    assert (Hwpos : 0 < xmax - xmin)
      by (rewrite Hw; apply Rmult_lt_0_compat; [lra | now apply Rinv_0_lt_compat]).
    assert (Hhalf : forall lo hi : R, hi - lo = (xmax - xmin) / 2 ->
                      hi - lo = w0 / 2 ^ S n).
    { intros lo hi ->. rewrite Hw. simpl pow. field. lra. }
    cbn [bisectionLoop]. cbv zeta.
    replace (MaxIterations <=? n)%nat with false
      by (symmetry; apply Nat.leb_gt; unfold MaxIterations; lia).
    autorewrite with f64. rewrite !(fdiv_Fin _ 2) by lra. rewrite fltb_Fin.
    rewrite (Rabs_right (xmax - xmin)) by lra.
    destruct (Abs (f (Fin ((xmin + xmax) / 2)) - y) <? tolY)%f64; cbn [orb];
      [exists ((xmin + xmax) / 2), n; split; [reflexivity | split; [lia | lra]] |].
    destruct (Rlt_dec ((xmax - xmin) / 2) (w0 * 0.001)) as [Hx | Hx].
    + rewrite Rltb_true by assumption.
      exists ((xmin + xmax) / 2), n. split; [reflexivity | split; [lia | lra]].
    + rewrite Rltb_false by lra.
      assert (Hn' : (S n <= 9)%nat).
      { destruct (Nat.eq_dec n 9) as [-> | Hne]; [| lia].
        exfalso. apply Hx. rewrite Hw. simpl pow. lra. }
      destruct (f (Fin ((xmin + xmax) / 2)) - y >? 0)%f64.
      * destruct (IH (S n) xmin ((xmin + xmax) / 2)) as (x & m & E & Hm & Hxr);
          [apply Hhalf; lra | assumption | lia |].
        exists x, m. split; [exact E | split; [assumption | lra]].
      * destruct (IH (S n) ((xmin + xmax) / 2) xmax) as (x & m & E & Hm & Hxr);
          [apply Hhalf; lra | assumption | lia |].
        exists x, m. split; [exact E | split; [assumption | lra]].
Qed.

(** X24.  On a bracket [xmin < xmax] that is neither tiny nor far from zero
    for its width (width at least [1e-290], ends at most [1e300] and at
    most [1e9] widths in magnitude), [bisectionMethod] returns after at
    most nine bisections, whatever [f] and [y] are: the iteration cap is
    never reached, and the estimate lies in the bracket. *)
Theorem bisectionMethod_at_most_nine (f : float64 -> float64) (y : float64)
    (xmin xmax : R) (fuel : nat) :
  xmin < xmax -> (10 <= fuel)%nat ->
  Rabs xmin <= 1e300 -> Rabs xmax <= 1e300 -> 1e-290 <= xmax - xmin ->
  Rabs xmin <= 1e9 * (xmax - xmin) -> Rabs xmax <= 1e9 * (xmax - xmin) ->
  exists (x : R) (n : nat),
    bisectionLoop fuel f y
      (Abs (Fin xmax - Fin xmin) * Fin 0.001)%f64
      (Abs (f (Fin xmax) - f (Fin xmin)) * Fin 0.001)%f64
      0 (Fin xmin) (Fin xmax) = Ok (Fin x, n)
    /\ bisectionMethod fuel f y (Fin xmin) (Fin xmax) = Ok (Fin x)
    /\ (n <= 9)%nat
    /\ xmin <= x <= xmax.
Proof.
  intros Hx Hfuel _ _ _ _ _.
  destruct (bisectionLoop_halving f y
              (Abs (f (Fin xmax) - f (Fin xmin)) * Fin 0.001)%f64
              (xmax - xmin) ltac:(lra) fuel 0 xmin xmax)
    as (x & n & E & Hn & Hxr); [simpl; lra | lia | lia |].
  assert (Etol : (Abs (Fin xmax - Fin xmin) * Fin 0.001)%f64
                 = Fin ((xmax - xmin) * 0.001))
    by (autorewrite with f64; rewrite Rabs_right by lra; reflexivity).
  exists x, n. rewrite Etol. split; [exact E |].
  split; [| split; [assumption | lra]].
  unfold bisectionMethod. cbv zeta. rewrite Etol, E. reflexivity.
Qed.

Lemma bisectionMethod_at_most_nine_witness :
  0 < 1 /\ (10 <= 10)%nat
  /\ Rabs 0 <= 1e300 /\ Rabs 1 <= 1e300 /\ 1e-290 <= 1 - 0
  /\ Rabs 0 <= 1e9 * (1 - 0) /\ Rabs 1 <= 1e9 * (1 - 0)
  /\ bisectionMethod 10 (fun x => x) (Fin 0.7) (Fin 0) (Fin 1) = Ok (Fin 0.69921875)
  /\ exists (x : R) (n : nat),
       bisectionLoop 10 (fun x => x) (Fin 0.7)
         (Abs (Fin 1 - Fin 0) * Fin 0.001)%f64
         (Abs (Fin 1 - Fin 0) * Fin 0.001)%f64
         0 (Fin 0) (Fin 1) = Ok (Fin x, n)
       /\ bisectionMethod 10 (fun x => x) (Fin 0.7) (Fin 0) (Fin 1) = Ok (Fin x)
       /\ (n <= 9)%nat
       /\ 0 <= x <= 1.
Proof.
  assert (H1 : 0 < 1) by lra.
  assert (H2 : (10 <= 10)%nat) by lia.
  assert (H3 : Rabs 0 <= 1e300) by (rabs; lra).
  assert (H4 : Rabs 1 <= 1e300) by (rabs; lra).
  assert (H5 : 1e-290 <= 1 - 0) by lra.
  assert (H6 : Rabs 0 <= 1e9 * (1 - 0)) by (rabs; lra).
  assert (H7 : Rabs 1 <= 1e9 * (1 - 0)) by (rabs; lra).
  split; [exact H1 |]. split; [exact H2 |]. split; [exact H3 |].
  split; [exact H4 |]. split; [exact H5 |]. split; [exact H6 |].
  split; [exact H7 |].
  split; [exact (proj1 (bisectionMethod_seven_passes 2)) |].
  exact (bisectionMethod_at_most_nine (fun x => x) (Fin 0.7) 0 1 10
           H1 H2 H3 H4 H5 H6 H7).
Defined.

(** on a bracket of width zero no test of the loop succeeds *)
Lemma bisectionLoop_degenerate (f : float64 -> float64) (y : float64) (a : R)
    (tolY : float64) :
  tolY = Fin 0 \/ tolY = NaN ->
  forall (k fuel n : nat),
    (n + k = MaxIterations)%nat ->
    bisectionLoop fuel f y (Fin 0) tolY n (Fin a) (Fin a)
    = if (k <? fuel)%nat then Ok (Fin a, MaxIterations) else OutOfFuel.
Proof.
  intros HtolY.
  assert (Habs : forall d : float64, (Abs d <? tolY)%f64 = false).
  { intros d. destruct HtolY as [-> | ->].
    - destruct d as [| | r |]; try reflexivity.
      cbn [Abs]. rewrite fltb_Fin. apply Rltb_false. apply Rabs_pos.
    - destruct d; reflexivity. }
  assert (Emid : ((Fin a + Fin a) / 2)%f64 = Fin a)
    by (autorewrite with f64; rewrite fdiv_Fin by lra; f_equal; lra).
  assert (Ew : (Abs (Fin a - Fin a) / 2 <? Fin 0)%f64 = false).
  { autorewrite with f64. rewrite fdiv_Fin by lra. rewrite fltb_Fin.
    apply Rltb_false. rewrite Rminus_diag, Rabs_R0. lra. }
  induction k as [| k IH]; intros fuel n Hn.
  - destruct fuel as [| fuel]; [reflexivity |].
    cbn [bisectionLoop]. cbv zeta. rewrite Emid.
    replace (MaxIterations <=? n)%nat with true
      by (symmetry; apply Nat.leb_le; lia).
    replace n with MaxIterations by lia. reflexivity.
  - destruct fuel as [| fuel]; [reflexivity |].
    cbn [bisectionLoop]. cbv zeta. rewrite Emid.
    replace (MaxIterations <=? n)%nat with false
      by (symmetry; apply Nat.leb_gt; lia).
    rewrite Habs, Ew. cbn [orb].
    assert (E : (S k <? S fuel)%nat = (k <? fuel)%nat) by reflexivity.
    rewrite E.
    destruct (f (Fin a) - y >? 0)%f64; apply IH; lia.
Qed.

(** X26.  On a bracket of width zero (its point at most [8e307] in magnitude)
    both tolerances are zero or NaN, no test succeeds, and the loop runs
    into the iteration cap: [bisectionMethod] needs all of its hundred
    iterations to return the bracket point, whatever [f] and [y] are. *)
Theorem bisectionMethod_degenerate_bracket (f : float64 -> float64) (y : float64)
    (a : R) (fuel : nat) :
  Rabs a <= 8e307 ->
  bisectionLoop fuel f y
    (Abs (Fin a - Fin a) * Fin 0.001)%f64
    (Abs (f (Fin a) - f (Fin a)) * Fin 0.001)%f64
    0 (Fin a) (Fin a)
  = (if (100 <? fuel)%nat then Ok (Fin a, 100%nat) else OutOfFuel)
  /\ bisectionMethod fuel f y (Fin a) (Fin a)
     = (if (100 <? fuel)%nat then Ok (Fin a) else OutOfFuel).
Proof.
  intros _.
  assert (EtolX : (Abs (Fin a - Fin a) * Fin 0.001)%f64 = Fin 0).
  { autorewrite with f64. f_equal. rewrite Rminus_diag, Rabs_R0. lra. }
  assert (HtolY : (Abs (f (Fin a) - f (Fin a)) * Fin 0.001)%f64 = Fin 0
                  \/ (Abs (f (Fin a) - f (Fin a)) * Fin 0.001)%f64 = NaN).
  { destruct (f (Fin a)) as [| | r |]; [now right | now right | left | now right].
    autorewrite with f64. f_equal. rewrite Rminus_diag, Rabs_R0. lra. }
  pose proof (bisectionLoop_degenerate f y a _ HtolY 100 fuel 0 eq_refl) as E.
  rewrite EtolX. split; [exact E |].
  unfold bisectionMethod. cbv zeta. rewrite EtolX, E.
  destruct (100 <? fuel)%nat; reflexivity.
Qed.

Lemma bisectionMethod_degenerate_bracket_witness :
  Rabs 3 <= 8e307
  /\ bisectionLoop 101 (fun x => x) (Fin 5)
       (Abs (Fin 3 - Fin 3) * Fin 0.001)%f64
       (Abs (Fin 3 - Fin 3) * Fin 0.001)%f64
       0 (Fin 3) (Fin 3)
     = (if (100 <? 101)%nat then Ok (Fin 3, 100%nat) else OutOfFuel)
  /\ bisectionMethod 101 (fun x => x) (Fin 5) (Fin 3) (Fin 3)
     = (if (100 <? 101)%nat then Ok (Fin 3) else OutOfFuel).
Proof.
  assert (H : Rabs 3 <= 8e307) by (rabs; lra).
  split; [exact H |].
  exact (bisectionMethod_degenerate_bracket (fun x => x) (Fin 5) 3 101 H).
Defined.

(** ** Further properties: rectangles *)

Lemma encompasses_finite (x y w h x' y' w' h' : R) :
  encompasses (finiteRect x y w h) (finiteRect x' y' w' h') = true
  <-> x <= x' /\ y <= y' /\ x' + w' <= x + w /\ y' + h' <= y + h.
Proof.
  unfold encompasses, finiteRect; cbn [Rect.X Rect.Y Rect.W Rect.H].
  rewrite !fadd_Fin, !andb_true_iff. split.
  - intros [[[H1 H2] H3] H4]. repeat split; now apply fleb_Fin_inv.
  - intros (H1 & H2 & H3 & H4). repeat split; now apply fleb_Fin_le.
Qed.

Lemma Min_comm (x y : float64) : Min x y = Min y x.
Proof.
  destruct x as [| | a |], y as [| | b |]; try reflexivity.
  cbn [Min]. rewrite !fltb_Fin.
  destruct (Rlt_dec a b); [| destruct (Rlt_dec b a)].
  - rewrite (Rltb_true a b), (Rltb_false b a) by lra. reflexivity.
  - rewrite (Rltb_false a b), (Rltb_true b a) by lra. reflexivity.
  - rewrite (Rltb_false a b), (Rltb_false b a) by lra. f_equal. lra.
Qed.

Lemma Max_comm (x y : float64) : Max x y = Max y x.
Proof.
  destruct x as [| | a |], y as [| | b |]; try reflexivity.
  cbn [Max]. rewrite !fltb_Fin.
  destruct (Rlt_dec a b); [| destruct (Rlt_dec b a)].
  - rewrite (Rltb_true a b), (Rltb_false b a) by lra. reflexivity.
  - rewrite (Rltb_false a b), (Rltb_true b a) by lra. reflexivity.
  - rewrite (Rltb_false a b), (Rltb_false b a) by lra. f_equal. lra.
Qed.

(** X29.  The order of the two rectangles does not matter to [Add] unless both
    are flat (of zero width or height): then [Add] returns its receiver,
    whichever it is. *)
Theorem Rect_Add_commutes (r q : Rect.Rect) :
  (flat r && flat q = false -> Rect.Add r q = Rect.Add q r)
  /\ (flat r && flat q = true -> Rect.Add r q = r /\ Rect.Add q r = q).
Proof.
  unfold Rect.Add, flat.
  destruct ((Rect.W r == 0) || (Rect.H r == 0))%f64,
           ((Rect.W q == 0) || (Rect.H q == 0))%f64; cbn [andb];
    (split; [intros E | intros E]); try discriminate; try reflexivity.
  - split; reflexivity.
  - cbv zeta.
    rewrite (Min_comm (Rect.X r)), (Min_comm (Rect.Y r)),
      (Max_comm (Rect.X r + Rect.W r)%f64), (Max_comm (Rect.Y r + Rect.H r)%f64).
    reflexivity.
Qed.

(** X30.  A rectangle of zero width is ignored even when it has a height: added
    to a rectangle beside it, on either side of [Add], the result is the other
    rectangle, which does not encompass it. *)
Theorem Rect_Add_drops_flat_rect (x y w h x' y' h' : R) :
  w <> 0 -> h <> 0 -> x' < x \/ x + w < x' ->
  let r := finiteRect x y w h in
  let q := finiteRect x' y' 0 h' in
  Rect.Add r q = r /\ Rect.Add q r = r
  /\ encompasses (Rect.Add r q) q = false.
Proof.
  intros Hw Hh Hout. cbv zeta.
  assert (E1 : Rect.Add (finiteRect x y w h) (finiteRect x' y' 0 h') = finiteRect x y w h).
  { unfold Rect.Add, finiteRect. cbn [Rect.X Rect.Y Rect.W Rect.H].
    rewrite (feqb_Fin 0 0), (Reqb_true 0 0) by reflexivity. reflexivity. }
  assert (E2 : Rect.Add (finiteRect x' y' 0 h') (finiteRect x y w h) = finiteRect x y w h).
  { unfold Rect.Add, finiteRect. cbn [Rect.X Rect.Y Rect.W Rect.H].
    rewrite !feqb_Fin, (Reqb_false w 0), (Reqb_false h 0), (Reqb_true 0 0)
      by (assumption || reflexivity).
    reflexivity. }
  rewrite E1, E2. repeat split.
  destruct (encompasses (finiteRect x y w h) (finiteRect x' y' 0 h')) eqn:E;
    [| reflexivity].
  apply encompasses_finite in E. lra.
Qed.

Lemma Rect_Add_drops_flat_rect_witness :
  1 <> 0 /\ 1 <> 0 /\ (5 < 0 \/ 0 + 1 < 5) /\
  let r := finiteRect 0 0 1 1 in
  let q := finiteRect 5 0 0 1 in
  Rect.Add r q = r /\ Rect.Add q r = r
  /\ encompasses (Rect.Add r q) q = false.
Proof.
  split; [lra |]. split; [lra |]. split; [right; lra |].
  apply (Rect_Add_drops_flat_rect 0 0 1 1 5 0 1); [lra | lra | right; lra].
Defined.
